(** * milterfrom: envelope sender against [From:] header, for authenticated mail

    A shallow embedding of [milterfrom.c] (the address extractor
    [parse_address] and the five libmilter callbacks [mlfi_envfrom],
    [mlfi_header], [mlfi_eom], [mlfi_abort], [mlfi_negotiate]) together with
    the properties that its specification states about them. *)

From Stdlib Require Import ZArith List Bool Ascii String Lia.
Import ListNotations.
Local Open Scope Z_scope.

(** ** C data *)

(** A C string is represented by its bytes before the terminating NUL; a
    pointer into a string is the string that starts at that byte. *)
Definition cstring := list ascii.

Definition cstr (s : string) : cstring := list_ascii_of_string s.

Definition NUL : ascii := Ascii.zero.

(** The value of a [char] read as [unsigned char]. *)
Definition char_code (c : ascii) : Z := Z.of_N (N_of_ascii c).

(** [int] is 32 bits wide, [size_t] and [unsigned long] 64 bits. *)
Definition INT_MAX : Z := 2147483647.

Definition int_of (z : Z) : Z := (z + 2 ^ 31) mod 2 ^ 32 - 2 ^ 31.

Definition size_t_of (z : Z) : Z := z mod 2 ^ 64.

Definition strlen (s : cstring) : Z := Z.of_nat (List.length s).

(** [p + k] for a pointer [p] into a string and [0 <= k <= strlen p]. *)
Definition ptr_add (p : cstring) (k : Z) : cstring := skipn (Z.to_nat k) p.

(** The first [n] bytes at [p], fewer when the string ends before. *)
Fixpoint take (n : Z) (p : cstring) : cstring :=
  match p with
  | [] => []
  | c :: p' => if 0 <? n then c :: take (n - 1) p' else []
  end.

(** Strings whose length is representable in an [int]. *)
Definition fits_int (s : cstring) : Prop := strlen s <= INT_MAX.

(** Strings that hold no NUL byte, as every C string does. *)
Definition nul_free (s : cstring) : Prop := Forall (fun c => c <> NUL) s.

(** ** The address extractor *)

(** The [for] loop of [parse_address]; [rest] is [address + i]. *)
Fixpoint parse_address_loop (rest : cstring) (i inlen pos_open pos_close : Z)
  : Z * Z :=
  match rest with
  | [] => (pos_open, pos_close)
  | c :: rest' =>
      if i <? inlen then
        if Ascii.eqb c "<" then
          parse_address_loop rest' (int_of (i + 1)) inlen i pos_close
        else if Ascii.eqb c ">" then
          parse_address_loop rest' (int_of (i + 1)) inlen pos_open i
        else
          parse_address_loop rest' (int_of (i + 1)) inlen pos_open pos_close
      else (pos_open, pos_close)
  end.

(** [parse_address address &len]: the returned pointer and the value stored
    in [*len]. *)
Definition parse_address (address : cstring) : cstring * Z :=
  let inlen := int_of (strlen address) in
  let '(pos_open, pos_close) := parse_address_loop address 0 inlen (-1) (-1) in
  if negb (pos_open =? -1) && negb (pos_close =? -1) && (pos_open <? pos_close)
  then (ptr_add (ptr_add address pos_open) 1,
        int_of (int_of (pos_close - pos_open) - 1))
  else (address, inlen).

(** The byte range that a pointer and a length denote. *)
Definition slice (tok : cstring * Z) : cstring := take (snd tok) (fst tok).

(** *** The extractor in the words of its specification *)

(** Position of the last occurrence of [c] in [s]. *)
Fixpoint last_index (c : ascii) (s : cstring) : option nat :=
  match s with
  | [] => None
  | x :: r =>
      match last_index c r with
      | Some p => Some (S p)
      | None => if Ascii.eqb x c then Some O else None
      end
  end.

(** The bytes strictly between positions [open] and [close]. *)
Definition between (open close : nat) (s : cstring) : cstring :=
  firstn (close - open - 1) (skipn (S open) s).

Definition extract (field_value : cstring) : cstring * Z :=
  match last_index "<" field_value, last_index ">" field_value with
  | Some open, Some close =>
      if (open <? close)%nat
      then (between open close field_value, Z.of_nat close - Z.of_nat open - 1)
      else (field_value, strlen field_value)
  | _, _ => (field_value, strlen field_value)
  end.

(** ** libc string comparison *)

(** [tolower] in the C locale, on [unsigned char] values. *)
Definition tolower (c : Z) : Z :=
  if (65 <=? c) && (c <=? 90) then c + 32 else c.

(** The byte [*p]; at the end of the string it is the terminating NUL. *)
Definition load_char (p : cstring) : Z :=
  match p with
  | [] => 0
  | c :: _ => char_code c
  end.

Fixpoint strcasecmp (s1 s2 : cstring) : Z :=
  let c1 := tolower (load_char s1) in
  let c2 := tolower (load_char s2) in
  match s1 with
  | [] => c1 - c2
  | _ :: s1' =>
      if (c1 =? 0) || negb (c1 =? c2) then c1 - c2
      else strcasecmp s1' (tl s2)
  end.

Fixpoint strncasecmp (s1 s2 : cstring) (n : Z) : Z :=
  if n =? 0 then 0
  else
    let c1 := tolower (load_char s1) in
    let c2 := tolower (load_char s2) in
    match s1 with
    | [] => c1 - c2
    | _ :: s1' =>
        if (c1 =? 0) || negb (c1 =? c2) then c1 - c2
        else strncasecmp s1' (tl s2) (n - 1)
    end.

(** ** libmilter *)

(** Return codes of a callback ([sfsistat] in [libmilter/mfapi.h]). *)
Inductive sfsistat : Set :=
| SMFIS_CONTINUE
| SMFIS_REJECT
| SMFIS_DISCARD
| SMFIS_ACCEPT
| SMFIS_TEMPFAIL
| SMFIS_NOREPLY
| SMFIS_SKIP.

(** The protocol-step bits of [libmilter/mfdef.h] that the filter names.
    The header is not part of the sources, so the bits are taken as
    parameters. *)
Class mfdef : Set := {
  SMFIP_NOCONNECT : Z;
  SMFIP_NOHELO : Z;
  SMFIP_NORCPT : Z;
  SMFIP_NR_HDR : Z
}.

(** The values that libmilter ships. *)
Definition libmilter_mfdef : mfdef :=
  {| SMFIP_NOCONNECT := 1; SMFIP_NOHELO := 2; SMFIP_NORCPT := 8;
     SMFIP_NR_HDR := 128 |}.

(** ** State *)

Record mlfiPriv : Set := {
  is_auth : Z;
  env_from : cstring;
  env_from_len : Z;
  reject : Z
}.

(** What the callbacks of one connection read and write: the context [ctx]
    (private-data slot, macro values, reply of the current message), the
    global [mta_caps] and the allocator.  [heap_oracle] lists the outcome
    of the allocation requests to come, [true] for a request that is
    served; requests past the end of the list are served.  [heap_live]
    counts the blocks that were handed out and not released. *)
Record world : Type := {
  ctx_priv : option mlfiPriv;
  ctx_symval : cstring -> option cstring;
  ctx_reply : option (cstring * cstring * cstring);
  mta_caps : Z;
  heap_oracle : list bool;
  heap_live : nat
}.

Definition with_priv (w : world) (x : option mlfiPriv) : world :=
  {| ctx_priv := x; ctx_symval := ctx_symval w; ctx_reply := ctx_reply w;
     mta_caps := mta_caps w; heap_oracle := heap_oracle w;
     heap_live := heap_live w |}.

Definition with_reply (w : world) (x : option (cstring * cstring * cstring))
  : world :=
  {| ctx_priv := ctx_priv w; ctx_symval := ctx_symval w; ctx_reply := x;
     mta_caps := mta_caps w; heap_oracle := heap_oracle w;
     heap_live := heap_live w |}.

Definition with_caps (w : world) (x : Z) : world :=
  {| ctx_priv := ctx_priv w; ctx_symval := ctx_symval w;
     ctx_reply := ctx_reply w; mta_caps := x; heap_oracle := heap_oracle w;
     heap_live := heap_live w |}.

Definition with_heap (w : world) (o : list bool) (n : nat) : world :=
  {| ctx_priv := ctx_priv w; ctx_symval := ctx_symval w;
     ctx_reply := ctx_reply w; mta_caps := mta_caps w; heap_oracle := o;
     heap_live := n |}.

Definition with_reject (p : mlfiPriv) (x : Z) : mlfiPriv :=
  {| is_auth := is_auth p; env_from := env_from p;
     env_from_len := env_from_len p; reject := x |}.

(** ** Computations *)

(** A callback either returns a value in a new state, or dereferences a
    null pointer, after which nothing is defined. *)
Inductive result (A : Type) : Type :=
| Done (a : A) (w : world)
| Fault.

Arguments Done {A} a w.
Arguments Fault {A}.

Definition M (A : Type) : Type := world -> result A.

Definition ret {A : Type} (a : A) : M A := fun w => Done a w.

Definition bind {A B : Type} (c : M A) (k : A -> M B) : M B :=
  fun w =>
    match c w with
    | Done a w' => k a w'
    | Fault => Fault
    end.

Notation "x <- c ;; k" := (bind c (fun x => k))
  (at level 61, c at next level, right associativity).
Notation "c ;;; k" := (bind c (fun _ => k))
  (at level 61, right associativity).

(** [p->...] for a pointer that may be null. *)
Definition deref {A : Type} (p : option A) : M A :=
  fun w =>
    match p with
    | Some a => Done a w
    | None => Fault
    end.

Definition smfi_getpriv : M (option mlfiPriv) := fun w => Done (ctx_priv w) w.

Definition smfi_setpriv (x : option mlfiPriv) : M unit :=
  fun w => Done tt (with_priv w x).

Definition smfi_getsymval (name : cstring) : M (option cstring) :=
  fun w => Done (ctx_symval w name) w.

Definition smfi_setreply (rcode xcode message : cstring) : M unit :=
  fun w => Done tt (with_reply w (Some (rcode, xcode, message))).

Definition get_mta_caps : M Z := fun w => Done (mta_caps w) w.

Definition set_mta_caps (x : Z) : M unit := fun w => Done tt (with_caps w x).

(** An allocation request: [true] when a block is handed out. *)
Definition allocate : M bool :=
  fun w =>
    match heap_oracle w with
    | [] => Done true (with_heap w [] (S (heap_live w)))
    | true :: o => Done true (with_heap w o (S (heap_live w)))
    | false :: o => Done false (with_heap w o (heap_live w))
    end.

Definition malloc : M bool := allocate.

Definition free : M unit :=
  fun w => Done tt (with_heap w (heap_oracle w) (pred (heap_live w))).

Definition strndup (s : cstring) (n : Z) : M (option cstring) :=
  ok <- allocate ;;
  ret (if ok then Some (take n s) else None).

(** Assignment to [priv->reject], [priv] being the pointer that the
    private-data slot holds. *)
Definition store_reject (p : mlfiPriv) (x : Z) : M unit :=
  fun w => Done tt (with_priv w (Some (with_reject p x))).

(** ** The callbacks *)

Definition mlfi_cleanup : M unit :=
  priv <- smfi_getpriv ;;
  match priv with
  | None => ret tt
  | Some _ =>
      free ;;;
      free ;;;
      smfi_setpriv None
  end.

(** [envfrom] is the string [*envfrom], the sender address.  The record
    that [malloc] returns is reachable from nowhere until [smfi_setpriv],
    by when its four fields are assigned. *)
Definition mlfi_envfrom (envfrom : cstring) : M sfsistat :=
  priv <- malloc ;;
  if negb priv then ret SMFIS_TEMPFAIL
  else
    let '(from, len) := parse_address envfrom in
    fromcp <- strndup from (size_t_of len) ;;
    match fromcp with
    | None => ret SMFIS_TEMPFAIL
    | Some fromcp =>
        auth_type <- smfi_getsymval (cstr "{auth_type}") ;;
        smfi_setpriv
          (Some {| is_auth := match auth_type with Some _ => 1 | None => 0 end;
                   env_from := fromcp;
                   env_from_len := len;
                   reject := 0 |}) ;;;
        ret SMFIS_CONTINUE
    end.

Definition mlfi_header `{mfdef} (headerf headerv : cstring) : M sfsistat :=
  priv <- smfi_getpriv ;;
  p <- deref priv ;;
  (if negb (is_auth p =? 0) && (reject p =? 0) then
     if strcasecmp headerf (cstr "from") =? 0 then
       let '(from, len) := parse_address headerv in
       if negb (len =? env_from_len p)
          || negb (strncasecmp from (env_from p) (size_t_of len) =? 0)
       then store_reject p 1
       else ret tt
     else ret tt
   else ret tt) ;;;
  caps <- get_mta_caps ;;
  ret (if negb (Z.land caps SMFIP_NR_HDR =? 0)
       then SMFIS_NOREPLY else SMFIS_CONTINUE).

Definition reject_reply : cstring * cstring * cstring :=
  (cstr "550", cstr "5.7.1",
   cstr "Rejected due to unmatching envelope and header sender.").

Definition mlfi_eom : M sfsistat :=
  priv <- smfi_getpriv ;;
  p <- deref priv ;;
  if negb (reject p =? 0) then
    smfi_setreply (cstr "550") (cstr "5.7.1")
      (cstr "Rejected due to unmatching envelope and header sender.") ;;;
    mlfi_cleanup ;;;
    ret SMFIS_REJECT
  else
    mlfi_cleanup ;;;
    ret SMFIS_CONTINUE.

Definition mlfi_abort : M sfsistat :=
  mlfi_cleanup ;;;
  ret SMFIS_CONTINUE.

(** The value returned and the masks stored in [*pf0] to [*pf3]. *)
Definition mlfi_negotiate `{mfdef} (f0 f1 f2 f3 : Z)
  : M (sfsistat * (Z * Z * Z * Z)) :=
  let pf0 := 0 in
  let pf1 := Z.lor (Z.lor SMFIP_NOCONNECT SMFIP_NOHELO) SMFIP_NORCPT in
  set_mta_caps f1 ;;;
  caps <- get_mta_caps ;;
  let pf1 :=
    if negb (Z.land caps SMFIP_NR_HDR =? 0) then Z.lor pf1 SMFIP_NR_HDR
    else pf1 in
  let pf2 := 0 in
  let pf3 := 0 in
  ret (SMFIS_CONTINUE, (pf0, pf1, pf2, pf3)).

(** ** The vocabulary of the specification *)

(** A string with its letters folded to lower case. *)
Definition lower (s : cstring) : list Z :=
  map (fun c => tolower (char_code c)) s.

(** Two address tokens are equal when their lengths match and their bytes
    match under case-insensitive comparison. *)
Definition token_eq (a b : cstring * Z) : Prop :=
  snd a = snd b /\ lower (slice a) = lower (slice b).

(** A field name that is [from] up to the case of its letters. *)
Definition is_from (headerf : cstring) : Prop :=
  lower headerf = lower (cstr "from").

(** The token that a session stores. *)
Definition stored (p : mlfiPriv) : cstring * Z := (env_from p, env_from_len p).

(** The header events of a message, in order, as the milter runtime
    delivers them: whatever a header callback returns, the next header
    follows. *)
Fixpoint mlfi_headers `{mfdef} (hs : list (cstring * cstring)) : M unit :=
  match hs with
  | [] => ret tt
  | (headerf, headerv) :: hs' =>
      mlfi_header headerf headerv ;;;
      mlfi_headers hs'
  end.

(** Where the loop leaves a position: at the last occurrence of [c] in the
    bytes still to read, or where it was. *)
Definition pos_after (c : ascii) (rest : cstring) (i d : Z) : Z :=
  match last_index c rest with
  | Some p => i + Z.of_nat p
  | None => d
  end.

(** The value that [mlfi_header] returns. *)
Definition header_reply `{mfdef} (caps : Z) : sfsistat :=
  if negb (Z.land caps SMFIP_NR_HDR =? 0) then SMFIS_NOREPLY
  else SMFIS_CONTINUE.

(** The state once the session is destroyed: its two blocks released, the
    private-data slot null. *)
Definition destroyed (w : world) : world :=
  with_priv (with_heap w (heap_oracle w) (pred (pred (heap_live w)))) None.

(** Whether the [k]-th allocation request from now on is served. *)
Definition served (w : world) (k : nat) : bool := nth k (heap_oracle w) true.

(** The connection is authenticated when the macro [{auth_type}] has a
    value. *)
Definition authenticated (w : world) : Prop :=
  ctx_symval w (cstr "{auth_type}") <> None.

(** [r] is a normal return with value [a]. *)
Definition returns {A : Type} (r : result A) (a : A) : Prop :=
  exists w', r = Done a w'.

(** A header whose strings are C strings, the value of a length that an
    [int] holds. *)
Definition header_ok (h : cstring * cstring) : Prop :=
  nul_free (fst h) /\ nul_free (snd h) /\ fits_int (snd h).

(** A [From] header whose address differs from the one the session
    stores. *)
Definition mismatch (p : mlfiPriv) (h : cstring * cstring) : Prop :=
  is_from (fst h) /\ ~ token_eq (parse_address (snd h)) (stored p).

(** ** Sample states *)

(** A connection between two messages: no session, no reply, nothing
    allocated, every allocation request served. *)
Definition idle (auth : bool) (caps : Z) : world :=
  {| ctx_priv := None;
     ctx_symval := fun name =>
       if auth && String.eqb (string_of_list_ascii name) "{auth_type}"
       then Some (cstr "PLAIN") else None;
     ctx_reply := None;
     mta_caps := caps;
     heap_oracle := [];
     heap_live := O |}.

Definition alice : mlfiPriv :=
  {| is_auth := 1; env_from := cstr "alice@example.com"; env_from_len := 17;
     reject := 0 |}.

(** A message of an authenticated sender under way, with session [p]. *)
Definition busy (p : mlfiPriv) : world :=
  with_heap (with_priv (idle true 0) (Some p)) [] 2.

(** The callbacks of a message in a row, with libmilter's bits. *)
Definition sample_message (auth : bool) (envfrom : cstring)
    (hs : list (cstring * cstring)) : result sfsistat :=
  (r <- mlfi_envfrom envfrom ;;
   match r with
   | SMFIS_CONTINUE => @mlfi_headers libmilter_mfdef hs ;;; mlfi_eom
   | _ => ret r
   end) (idle auth 0).

(** ** The program *)

(** What [getopt] hands to the loop of [main] on its successive calls: the
    option character (['?'] for an option it does not know or whose
    argument is missing) and [optarg]. *)
Definition getopt_result : Set := (ascii * cstring)%type.

(** The local variables that the option loop assigns. *)
Record locals : Set := {
  daemonize : Z;
  pidfilename : option cstring;
  sockname : option cstring
}.

(** The [while] loop of [main].  [dups] lists the outcome of the [strdup]
    calls to come, as [heap_oracle] does. *)
Fixpoint main_getopt (opts : list getopt_result) (dups : list bool)
    (l : locals) : locals :=
  match opts with
  | [] => l
  | (c, optarg) :: opts' =>
      if Ascii.eqb c "s" then
        main_getopt opts' (tl dups)
          {| daemonize := daemonize l; pidfilename := pidfilename l;
             sockname := if hd true dups then Some optarg else None |}
      else if Ascii.eqb c "p" then
        main_getopt opts' (tl dups)
          {| daemonize := daemonize l;
             pidfilename := if hd true dups then Some optarg else None;
             sockname := sockname l |}
      else if Ascii.eqb c "d" then
        main_getopt opts' dups
          {| daemonize := 1; pidfilename := pidfilename l;
             sockname := sockname l |}
      else main_getopt opts' dups l
  end.

(** The argument of [exit], as [main] writes it. *)
Inductive exit_arg : Set :=
| EX_USAGE
| EXIT_1
| EXIT_FAILURE
| EX_UNAVAILABLE.

(** The lines that [main] prints on [stderr]. *)
Inductive complaint : Set :=
| Missing_s (argv0 : cstring)
| Pidfile_failed
| Daemon_failed
| Register_failed.

(** What [main] does to its environment, call by call. *)
Inductive action : Set :=
| Print (m : complaint)
| Unlink (path : cstring)
| Fopen (path : cstring)
| Daemon
| Write_pid (pid : Z)
| Fclose
| Stat (path : cstring)
| Setconn (conn : cstring)
| Register
| Run.

(** How the environment answers: the [strdup] calls in order, whether
    [fopen] returns a stream, [daemon] returns 0, [stat] returns 0 and
    [smfi_register] succeeds, the process id, the value of [smfi_main]. *)
Record os : Set := {
  os_strdup : list bool;
  os_fopen : bool;
  os_daemon : bool;
  os_getpid : Z;
  os_stat : bool;
  os_register : bool;
  os_smfi_main : Z
}.

(** A step of [main] goes on with a value, or leaves through [exit]; either
    way with the calls made so far, the first one first. *)
Inductive outcome (A : Type) : Type :=
| Next (a : A) (log : list action)
| Exited (code : exit_arg) (log : list action).

Arguments Next {A} a log.
Arguments Exited {A} code log.

Definition P (A : Type) : Type := list action -> outcome A.

Definition pret {A : Type} (a : A) : P A := fun log => Next a log.

Definition pbind {A B : Type} (c : P A) (k : A -> P B) : P B :=
  fun log =>
    match c log with
    | Next a log' => k a log'
    | Exited code log' => Exited code log'
    end.

Notation "x <~ c ;; k" := (pbind c (fun x => k))
  (at level 61, c at next level, right associativity).
Notation "c >> k" := (pbind c (fun _ => k))
  (at level 61, right associativity).

Definition act (a : action) : P unit := fun log => Next tt (log ++ [a]).

Definition c_exit {A : Type} (code : exit_arg) : P A :=
  fun log => Exited code log.

(** [main] after the option loop.  [pidfile] is whether the stream is
    open. *)
Definition main_body (argv0 : cstring) (l : locals) (sys : os) : P Z :=
  match sockname l with
  | None => act (Print (Missing_s argv0)) >> c_exit EX_USAGE
  | Some sock =>
      pidfile <~
        match pidfilename l with
        | Some name =>
            act (Unlink name) >>
            act (Fopen name) >>
            if os_fopen sys then pret true
            else act (Print Pidfile_failed) >> c_exit EXIT_1
        | None => pret false
        end ;;
      (if negb (daemonize l =? 0) then
         act Daemon >>
         if os_daemon sys then pret tt
         else act (Print Daemon_failed) >> c_exit EXIT_FAILURE
       else pret tt) >>
      (if pidfile : bool then
         act (Write_pid (os_getpid sys)) >> act Fclose
       else pret tt) >>
      act (Stat sock) >>
      (if os_stat sys then act (Unlink sock) else pret tt) >>
      act (Setconn sock) >>
      act Register >>
      if os_register sys then act Run >> pret (os_smfi_main sys)
      else act (Print Register_failed) >> c_exit EX_UNAVAILABLE
  end.

Definition main (argv0 : cstring) (opts : list getopt_result) (sys : os)
  : outcome Z :=
  main_body argv0
    (main_getopt opts (os_strdup sys)
       {| daemonize := 0; pidfilename := None; sockname := None |})
    sys [].

Definition log_of {A : Type} (o : outcome A) : list action :=
  match o with
  | Next _ log => log
  | Exited _ log => log
  end.

(** [a] is done before [b]. *)
Definition precedes (a b : action) (log : list action) : Prop :=
  exists l1 l2 l3, log = l1 ++ a :: l2 ++ b :: l3.

(** The argument of the last option [c] on the command line. *)
Fixpoint last_arg (c : ascii) (opts : list getopt_result) : option cstring :=
  match opts with
  | [] => None
  | (c', optarg) :: opts' =>
      match last_arg c opts' with
      | Some a => Some a
      | None => if Ascii.eqb c' c then Some optarg else None
      end
  end.

(** Every allocation request in the list is served. *)
Definition all_served (dups : list bool) : Prop := Forall (fun b => b = true) dups.

(** A sample environment in which every call succeeds. *)
Definition fair_os : os :=
  {| os_strdup := []; os_fopen := true; os_daemon := true; os_getpid := 4711;
     os_stat := true; os_register := true; os_smfi_main := 0 |}.

(** Whether option [c] is on the command line. *)
Definition has_opt (c : ascii) (opts : list getopt_result) : bool :=
  existsb (fun o => Ascii.eqb (fst o) c) opts.

(** The number of [strdup] calls that the option loop makes on [opts]. *)
Definition copies (opts : list getopt_result) : nat :=
  List.length
    (filter (fun o => Ascii.eqb (fst o) "s" || Ascii.eqb (fst o) "p") opts).

(** * Properties *)

(** ** Integers and strings *)

Lemma int_of_id z : - 2 ^ 31 <= z <= INT_MAX -> int_of z = z.
Proof.
  unfold int_of, INT_MAX. intros H.
  rewrite Z.mod_small; lia.
Qed.

Lemma take_firstn n s : take n s = firstn (Z.to_nat n) s.
Proof.
  revert n. induction s as [|c s IH]; intros n; simpl.
  - now rewrite firstn_nil.
  - destruct (Z.ltb_spec 0 n) as [Hn|Hn].
    + replace (Z.to_nat n) with (S (Z.to_nat (n - 1))) by lia.
      simpl. now rewrite IH.
    + replace (Z.to_nat n) with O by lia. reflexivity.
Qed.

(** [last_index] does find the last occurrence, when there is one. *)
Lemma last_index_None c s q : last_index c s = None -> nth_error s q <> Some c.
Proof.
  revert q. induction s as [|x r IH]; intros q; simpl.
  - now destruct q.
  - destruct (last_index c r) as [p'|]; [discriminate|].
    destruct (Ascii.eqb_spec x c) as [->|Hne]; [discriminate|].
    intros _. destruct q as [|q]; simpl; [congruence|now apply IH].
Qed.

Lemma last_index_Some c s p :
  last_index c s = Some p ->
  nth_error s p = Some c /\ forall q, (p < q)%nat -> nth_error s q <> Some c.
Proof.
  revert p. induction s as [|x r IH]; intros p; simpl; [discriminate|].
  destruct (last_index c r) as [p'|] eqn:E.
  - intros [= <-]. destruct (IH p' eq_refl) as [H1 H2].
    split; [exact H1|]. intros [|q] Hq; [lia|]. simpl. apply H2. lia.
  - destruct (Ascii.eqb_spec x c) as [->|Hne]; [|discriminate].
    intros [= <-]. split; [reflexivity|].
    intros [|q] Hq; [lia|]. simpl. now apply last_index_None.
Qed.

Lemma last_index_lt c s p : last_index c s = Some p -> (p < List.length s)%nat.
Proof.
  intros H. apply last_index_Some in H. destruct H as [H _].
  apply nth_error_Some. congruence.
Qed.

(** ** The address extractor *)

Lemma parse_address_loop_spec rest :
  forall i inlen pos_open pos_close,
    0 <= i -> i + strlen rest = inlen -> inlen <= INT_MAX ->
    parse_address_loop rest i inlen pos_open pos_close =
    (pos_after "<" rest i pos_open, pos_after ">" rest i pos_close).
Proof.
  unfold pos_after, strlen.
  induction rest as [|c rest IH]; intros i inlen po pc Hi Hlen Hmax.
  - reflexivity.
  - cbn [parse_address_loop last_index]. cbn [List.length] in Hlen.
    destruct (Z.ltb_spec i inlen) as [Hlt|Hge]; [|lia].
    rewrite int_of_id by (unfold INT_MAX in *; lia).
    assert (Hstep : forall p : nat, i + 1 + Z.of_nat p = i + Z.of_nat (S p))
      by (intros; lia).
    destruct (Ascii.eqb_spec c "<") as [->|Hopen].
    + rewrite (IH (i + 1) inlen i pc) by lia. cbn [Ascii.eqb Bool.eqb].
      destruct (last_index "<" rest), (last_index ">" rest);
        rewrite ?Hstep, ?Z.add_0_r; reflexivity.
    + destruct (Ascii.eqb_spec c ">") as [->|Hclose].
      * rewrite (IH (i + 1) inlen po i) by lia.
        destruct (last_index "<" rest), (last_index ">" rest);
          rewrite ?Hstep, ?Z.add_0_r; reflexivity.
      * rewrite (IH (i + 1) inlen po pc) by lia.
        destruct (last_index "<" rest), (last_index ">" rest);
          rewrite ?Hstep; reflexivity.
Qed.

(** What [parse_address] returns on a string of representable length. *)
Lemma parse_address_eq address :
  fits_int address ->
  parse_address address =
  match last_index "<" address, last_index ">" address with
  | Some open, Some close =>
      if (open <? close)%nat
      then (skipn (S open) address, Z.of_nat close - Z.of_nat open - 1)
      else (address, strlen address)
  | _, _ => (address, strlen address)
  end.
Proof.
  intros Hfit. unfold parse_address. unfold fits_int in Hfit.
  assert (Hlen : 0 <= strlen address) by (unfold strlen; lia).
  rewrite (int_of_id (strlen address)) by (unfold INT_MAX in *; lia).
  rewrite parse_address_loop_spec by lia.
  unfold pos_after.
  destruct (last_index "<" address) as [o|] eqn:Eo;
    destruct (last_index ">" address) as [c|] eqn:Ec; cbn [negb andb].
  - apply last_index_lt in Eo, Ec. unfold strlen, INT_MAX in *.
    rewrite !Z.add_0_l.
    destruct (Z.eqb_spec (Z.of_nat o) (-1)) as [?|_]; [lia|].
    destruct (Z.eqb_spec (Z.of_nat c) (-1)) as [?|_]; [lia|].
    cbn [negb andb].
    destruct (Nat.ltb_spec o c) as [Hoc|Hoc];
      destruct (Z.ltb_spec (Z.of_nat o) (Z.of_nat c)) as [Hz|Hz]; try lia;
      [|reflexivity].
    rewrite (int_of_id (Z.of_nat c - Z.of_nat o)) by (unfold INT_MAX; lia).
    rewrite int_of_id by (unfold INT_MAX; lia).
    unfold ptr_add. rewrite skipn_skipn, Nat2Z.id. reflexivity.
  - rewrite Z.eqb_refl, andb_false_r. reflexivity.
  - rewrite Z.eqb_refl. reflexivity.
  - rewrite Z.eqb_refl. reflexivity.
Qed.

Lemma slice_whole s : slice (s, strlen s) = s.
Proof.
  unfold slice, strlen. cbn [fst snd]. rewrite take_firstn, Nat2Z.id.
  apply firstn_all.
Qed.

Lemma slice_between address open close :
  slice (skipn (S open) address, Z.of_nat close - Z.of_nat open - 1) =
  between open close address.
Proof.
  unfold slice, between. cbn [fst snd]. rewrite take_firstn.
  f_equal. lia.
Qed.

(** C2. On every input (of a length that an [int] holds) [parse_address]
    returns what the specification's extractor returns: with the last ['<']
    at [open] and the last ['>'] at [close], [open < close], the bytes
    strictly between the two and the length [close - open - 1]; the whole
    input and its length otherwise.  It is a total function, and on the
    empty string the slice is empty. *)
Theorem parse_address_extract :
  (forall address : cstring,
      fits_int address ->
      slice (parse_address address) = fst (extract address) /\
      snd (parse_address address) = snd (extract address)) /\
  slice (parse_address []) = [] /\ snd (parse_address []) = 0.
Proof.
  split; [|split; reflexivity].
  intros address Hfit. rewrite (parse_address_eq address Hfit).
  unfold extract.
  destruct (last_index "<" address) as [o|], (last_index ">" address) as [c|];
    try (split; [apply slice_whole|reflexivity]).
  destruct (o <? c)%nat.
  - split; [apply slice_between|reflexivity].
  - split; [apply slice_whole|reflexivity].
Qed.

Lemma parse_address_extract_witness :
  fits_int (cstr "Max Mustermann <max.mustermann@example.invalid>") /\
  slice (parse_address (cstr "Max Mustermann <max.mustermann@example.invalid>"))
  = cstr "max.mustermann@example.invalid" /\
  snd (parse_address (cstr "Max Mustermann <max.mustermann@example.invalid>"))
  = 30.
Proof.
  assert (H : fits_int (cstr "Max Mustermann <max.mustermann@example.invalid>"))
    by (unfold fits_int; vm_compute; discriminate).
  split; [exact H|].
  exact (proj1 parse_address_extract _ H).
Defined.

Lemma last_index_absent c s : ~ In c s -> last_index c s = None.
Proof.
  induction s as [|x r IH]; intros Hin; [reflexivity|]. simpl.
  rewrite IH by (intros H; apply Hin; now right).
  destruct (Ascii.eqb_spec x c) as [->|_]; [|reflexivity].
  exfalso. apply Hin. now left.
Qed.

Lemma last_index_app c a b :
  last_index c (a ++ b) =
  match last_index c b with
  | Some p => Some (List.length a + p)%nat
  | None => last_index c a
  end.
Proof.
  induction a as [|x a IH]; simpl.
  - now destruct (last_index c b).
  - rewrite IH. now destruct (last_index c b).
Qed.

Lemma skipn_past (pre : cstring) x r : skipn (S (List.length pre)) (pre ++ x :: r) = r.
Proof.
  induction pre as [|y pre IH]; [reflexivity|exact IH].
Qed.

Lemma firstn_prefix (a b : cstring) : firstn (List.length a) (a ++ b) = a.
Proof.
  induction a as [|y a IH]; [reflexivity|]. simpl. now rewrite IH.
Qed.

(** The last ['<'] and the last ['>'] of a string whose last bracket pair
    is [<inner>]. *)
Lemma last_open_of_pair pre inner post :
  ~ In "<"%char inner -> ~ In "<"%char post ->
  last_index "<" (pre ++ "<"%char :: inner ++ ">"%char :: post) =
  Some (List.length pre).
Proof.
  intros Hi Hp. rewrite last_index_app. cbn [last_index].
  rewrite last_index_app. cbn [last_index].
  rewrite (last_index_absent _ _ Hp), (last_index_absent _ _ Hi).
  cbn. f_equal. lia.
Qed.

Lemma last_close_of_pair pre inner post :
  ~ In ">"%char post ->
  last_index ">" (pre ++ "<"%char :: inner ++ ">"%char :: post) =
  Some (List.length pre + S (List.length inner))%nat.
Proof.
  intros Hp. rewrite last_index_app. cbn [last_index].
  rewrite last_index_app. cbn [last_index].
  rewrite (last_index_absent _ _ Hp). cbn. do 2 f_equal. lia.
Qed.

(** C6, as the code has it.  When the bracket pair [<inner>] is the last
    one of the input (no ['<'] inside it, no bracket after it),
    [parse_address] returns exactly [inner], whatever precedes the pair and
    whatever bracket-free text follows it. *)
Theorem parse_address_last_pair (pre inner post : cstring) :
  ~ In "<"%char inner -> ~ In "<"%char post -> ~ In ">"%char post ->
  fits_int (pre ++ "<"%char :: inner ++ ">"%char :: post) ->
  slice (parse_address (pre ++ "<"%char :: inner ++ ">"%char :: post)) = inner
  /\ snd (parse_address (pre ++ "<"%char :: inner ++ ">"%char :: post))
     = strlen inner.
Proof.
  intros Hi Hpo Hpc Hfit. rewrite (parse_address_eq _ Hfit).
  rewrite (last_open_of_pair pre inner post Hi Hpo).
  rewrite (last_close_of_pair pre inner post Hpc).
  destruct (Nat.ltb_spec (List.length pre) (List.length pre + S (List.length inner)))
    as [_|?]; [|lia].
  split.
  - rewrite slice_between. unfold between. rewrite skipn_past.
    replace (List.length pre + S (List.length inner) - List.length pre - 1)%nat
      with (List.length inner) by lia.
    apply firstn_prefix.
  - cbn [snd]. unfold strlen. lia.
Qed.

Lemma parse_address_last_pair_witness :
  slice (parse_address
           (cstr "<a@b> Max " ++ "<"%char :: cstr "max@example.invalid"
              ++ ">"%char :: cstr " (home)"))
  = cstr "max@example.invalid".
Proof.
  refine (proj1 (parse_address_last_pair
                   (cstr "<a@b> Max ") (cstr "max@example.invalid")
                   (cstr " (home)") _ _ _ _)).
  - vm_compute. intuition discriminate.
  - vm_compute. intuition discriminate.
  - vm_compute. intuition discriminate.
  - unfold fits_int. vm_compute. discriminate.
Defined.

(** C6, as stated, fails: an input holds the well-formed pair
    [<max@example.invalid>], text follows the pair, and [parse_address]
    returns the whole input instead of the interior of the pair. *)
Lemma parse_address_pair_then_text :
  let pre := cstr "Max " in
  let inner := cstr "max@example.invalid" in
  let post := cstr " <" in
  ~ In "<"%char inner /\ ~ In ">"%char inner /\
  fits_int (pre ++ "<"%char :: inner ++ ">"%char :: post) /\
  slice (parse_address (pre ++ "<"%char :: inner ++ ">"%char :: post))
  = cstr "Max <max@example.invalid> <" /\
  slice (parse_address (pre ++ "<"%char :: inner ++ ">"%char :: post))
  <> inner.
Proof.
  cbv zeta. repeat split.
  - vm_compute. intuition discriminate.
  - vm_compute. intuition discriminate.
  - unfold fits_int. vm_compute. discriminate.
  - vm_compute. discriminate.
Qed.

(** ** Case-insensitive comparison *)

Lemma char_code_range c : 0 <= char_code c.
Proof. unfold char_code. lia. Qed.

Lemma char_code_NUL c : char_code c = 0 -> c = NUL.
Proof.
  unfold char_code, NUL. intros H.
  rewrite <- (ascii_N_embedding c).
  replace (N_of_ascii c) with 0%N by lia. reflexivity.
Qed.

Lemma tolower_zero z : 0 <= z -> tolower z = 0 -> z = 0.
Proof.
  unfold tolower. intros Hz.
  destruct ((65 <=? z) && (z <=? 90)) eqn:E; [|trivial].
  apply andb_prop in E. destruct E as [E _]. apply Z.leb_le in E. lia.
Qed.

Lemma lower_char_nonzero c : c <> NUL -> tolower (char_code c) <> 0.
Proof.
  intros Hc H. apply tolower_zero in H; [|apply char_code_range].
  now apply char_code_NUL in H.
Qed.

Lemma strcasecmp_zero s1 :
  forall s2, nul_free s1 -> nul_free s2 ->
             (strcasecmp s1 s2 = 0 <-> lower s1 = lower s2).
Proof.
  induction s1 as [|a s1 IH]; intros s2 H1 H2.
  - cbn [strcasecmp load_char lower map]. destruct s2 as [|b s2].
    + cbn. tauto.
    + cbn [load_char lower map]. apply Forall_inv in H2.
      apply lower_char_nonzero in H2. change (tolower 0) with 0.
      split; [lia|discriminate].
  - cbn [strcasecmp load_char lower map].
    pose proof (lower_char_nonzero a (Forall_inv H1)) as Ha.
    destruct (Z.eqb_spec (tolower (char_code a)) 0) as [?|_]; [contradiction|].
    cbn [orb]. destruct s2 as [|b s2].
    + cbn [load_char lower map]. change (tolower 0) with 0.
      destruct (Z.eqb_spec (tolower (char_code a)) 0) as [?|_]; [contradiction|].
      cbn [negb]. split; [lia|discriminate].
    + cbn [load_char lower map tl].
      destruct (Z.eqb_spec (tolower (char_code a)) (tolower (char_code b)))
        as [Heq|Hne]; cbn [negb].
      * rewrite (IH s2 (Forall_inv_tail H1) (Forall_inv_tail H2)).
        fold (lower s1) (lower s2). rewrite Heq.
        split; [intros ->; reflexivity|now intros [= ->]].
      * split; [lia|]. intros [= H _]. contradiction.
Qed.

Lemma strncasecmp_zero s1 :
  forall s2 n, nul_free s1 -> 0 <= n <= strlen s1 ->
               (strncasecmp s1 s2 n = 0 <-> lower (take n s1) = lower (take n s2)).
Proof.
  induction s1 as [|a s1 IH]; intros s2 n H1 Hn.
  - unfold strlen in Hn. cbn [List.length] in Hn.
    assert (n = 0) as -> by lia. cbn [strncasecmp Z.eqb take].
    destruct s2; cbn; tauto.
  - cbn [strncasecmp take]. destruct (Z.eqb_spec n 0) as [->|Hn0].
    + cbn [Z.ltb Z.compare]. destruct s2; cbn; tauto.
    + unfold strlen in Hn. cbn [List.length] in Hn.
      destruct (Z.ltb_spec 0 n) as [_|?]; [|lia].
      cbn [load_char].
      pose proof (lower_char_nonzero a (Forall_inv H1)) as Ha.
      destruct (Z.eqb_spec (tolower (char_code a)) 0) as [?|_]; [contradiction|].
      cbn [orb]. destruct s2 as [|b s2].
      * cbn [load_char take lower map]. change (tolower 0) with 0.
        destruct (Z.eqb_spec (tolower (char_code a)) 0) as [?|_];
          [contradiction|].
        cbn [negb]. split; [lia|discriminate].
      * cbn [load_char take tl].
        destruct (Z.ltb_spec 0 n) as [_|?]; [|lia].
        cbn [lower map].
        destruct (Z.eqb_spec (tolower (char_code a)) (tolower (char_code b)))
          as [Heq|Hne]; cbn [negb].
        -- rewrite (IH s2 (n - 1) (Forall_inv_tail H1))
             by (unfold strlen; lia).
           fold (lower (take (n - 1) s1)) (lower (take (n - 1) s2)).
           rewrite Heq. split; [intros ->; reflexivity|now intros [= ->]].
        -- split; [lia|]. intros [= H _]. contradiction.
Qed.

Lemma nul_free_skipn k s : nul_free s -> nul_free (skipn k s).
Proof.
  unfold nul_free. rewrite !Forall_forall. intros H c Hc. apply H.
  rewrite <- (firstn_skipn k s). apply in_or_app. now right.
Qed.

(** The pointer that [parse_address] returns points into its argument, and
    the length it stores is that of a range inside the string. *)
Lemma parse_address_view address :
  fits_int address ->
  (exists k, fst (parse_address address) = skipn k address) /\
  0 <= snd (parse_address address) <= strlen (fst (parse_address address)) /\
  snd (parse_address address) <= INT_MAX.
Proof.
  intros Hfit. rewrite (parse_address_eq address Hfit).
  unfold fits_int in Hfit.
  assert (Hwhole :
    (exists k, fst (address, strlen address) = skipn k address) /\
    0 <= snd (address, strlen address) <= strlen (fst (address, strlen address))
    /\ snd (address, strlen address) <= INT_MAX).
  { cbn [fst snd]. split; [now exists O|]. unfold strlen in *. lia. }
  destruct (last_index "<" address) as [o|] eqn:Eo; [|exact Hwhole].
  destruct (last_index ">" address) as [c|] eqn:Ec; [|exact Hwhole].
  destruct (Nat.ltb_spec o c) as [Hoc|_]; [|exact Hwhole].
  apply last_index_lt in Eo, Ec. cbn [fst snd].
  split; [now exists (S o)|].
  unfold strlen in *. rewrite length_skipn. lia.
Qed.

Lemma size_t_of_id z : 0 <= z <= INT_MAX -> size_t_of z = z.
Proof.
  unfold size_t_of, INT_MAX. intros H. apply Z.mod_small. lia.
Qed.

(** ** The header callback *)

Lemma nul_free_from : nul_free (cstr "from").
Proof. repeat constructor; discriminate. Qed.

(** The test of [mlfi_header] on the extracted token holds when the token
    differs from the stored one. *)
Lemma header_test_mismatch p headerv :
  nul_free headerv -> fits_int headerv ->
  negb (snd (parse_address headerv) =? env_from_len p)
  || negb (strncasecmp (fst (parse_address headerv)) (env_from p)
             (size_t_of (snd (parse_address headerv))) =? 0) = true <->
  ~ token_eq (parse_address headerv) (stored p).
Proof.
  intros Hnul Hfit.
  destruct (parse_address_view headerv Hfit) as [[k Hk] [Hlen Hmax]].
  assert (Hfrom : nul_free (fst (parse_address headerv)))
    by (rewrite Hk; now apply nul_free_skipn).
  rewrite size_t_of_id by lia.
  unfold token_eq, stored, slice. cbn [fst snd].
  destruct (Z.eqb_spec (snd (parse_address headerv)) (env_from_len p))
    as [Heq|Hne]; cbn [negb orb].
  - rewrite <- Heq.
    pose proof (strncasecmp_zero (fst (parse_address headerv)) (env_from p)
                  (snd (parse_address headerv)) Hfrom Hlen) as Hcmp.
    destruct (Z.eqb_spec
                (strncasecmp (fst (parse_address headerv)) (env_from p)
                   (snd (parse_address headerv))) 0) as [Hz|Hnz]; cbn [negb].
    + split; [discriminate|]. intros Hno. exfalso. apply Hno.
      split; [reflexivity|now apply Hcmp].
    + split; [|reflexivity]. intros _ [_ Hlow]. apply Hnz. now apply Hcmp.
  - split; [|reflexivity]. intros _ [Hlen' _]. contradiction.
Qed.

(** [mlfi_header] on a context that carries a session. *)
Lemma mlfi_header_session `{mfdef} w p headerf headerv :
  ctx_priv w = Some p ->
  mlfi_header headerf headerv w =
  Done (header_reply (mta_caps w))
    (if negb (is_auth p =? 0) && (reject p =? 0)
        && (strcasecmp headerf (cstr "from") =? 0)
        && (negb (snd (parse_address headerv) =? env_from_len p)
            || negb (strncasecmp (fst (parse_address headerv)) (env_from p)
                       (size_t_of (snd (parse_address headerv))) =? 0))
     then with_priv w (Some (with_reject p 1))
     else w).
Proof.
  intros Hp.
  unfold mlfi_header, bind, smfi_getpriv, deref, get_mta_caps, ret,
    store_reject, header_reply.
  rewrite Hp.
  destruct (negb (is_auth p =? 0) && (reject p =? 0)); cbn [andb];
    [|reflexivity].
  destruct (strcasecmp headerf (cstr "from") =? 0); cbn [andb];
    [|reflexivity].
  destruct (parse_address headerv) as [from len]. cbn [fst snd].
  destruct (negb (len =? env_from_len p)
            || negb (strncasecmp from (env_from p) (size_t_of len) =? 0));
    reflexivity.
Qed.

(** A header event on a session that is authenticated and not yet
    rejected. *)
Lemma mlfi_header_active `{mfdef} (w : world) (p : mlfiPriv)
    (headerf headerv : cstring) :
  ctx_priv w = Some p -> is_auth p <> 0 -> reject p = 0 ->
  nul_free headerf -> nul_free headerv -> fits_int headerv ->
  exists r w',
    mlfi_header headerf headerv w = Done r w' /\
    (is_from headerf -> ~ token_eq (parse_address headerv) (stored p) ->
     w' = with_priv w (Some (with_reject p 1))) /\
    (is_from headerf -> token_eq (parse_address headerv) (stored p) ->
     w' = w) /\
    (~ is_from headerf -> w' = w).
Proof.
  intros Hp Hauth Hrej Hf Hv Hfit.
  rewrite (mlfi_header_session w p headerf headerv Hp).
  eexists _, _. split; [reflexivity|].
  destruct (Z.eqb_spec (is_auth p) 0) as [?|_]; [contradiction|].
  rewrite Hrej. cbn [negb andb Z.eqb].
  pose proof (strcasecmp_zero headerf (cstr "from") Hf nul_free_from) as Hname.
  fold (is_from headerf) in Hname.
  pose proof (header_test_mismatch p headerv Hv Hfit) as Htest.
  destruct (Z.eqb_spec (strcasecmp headerf (cstr "from")) 0) as [Hz|Hnz];
    cbn [andb].
  - destruct (negb (snd (parse_address headerv) =? env_from_len p)
              || negb (strncasecmp (fst (parse_address headerv)) (env_from p)
                         (size_t_of (snd (parse_address headerv))) =? 0)).
    + split; [reflexivity|split].
      * intros _ Heq. exfalso. now apply (proj1 Htest).
      * intros Hno. exfalso. apply Hno. now apply Hname.
    + split; [|split; reflexivity].
      intros _ Hne. apply Htest in Hne. discriminate.
  - split; [|split; [|reflexivity]].
    + intros Hfrom. exfalso. apply Hnz. now apply Hname.
    + intros Hfrom. exfalso. apply Hnz. now apply Hname.
Qed.

(** C3. A header event on a session that is authenticated and not yet
    rejected: when the field name is [from] up to case, the session gets
    [reject = 1] exactly when the token extracted from the value differs
    from the stored one (in length, or in bytes compared without case), and
    the state stays as it is when they are equal; a header of any other
    name leaves the state as it is. *)
Theorem mlfi_header_from_check `{mfdef} (w : world) (p : mlfiPriv)
    (headerf headerv : cstring) :
  ctx_priv w = Some p -> is_auth p <> 0 -> reject p = 0 ->
  nul_free headerf -> nul_free headerv -> fits_int headerv ->
  exists r w',
    mlfi_header headerf headerv w = Done r w' /\
    (is_from headerf -> ~ token_eq (parse_address headerv) (stored p) ->
     w' = with_priv w (Some (with_reject p 1))) /\
    (is_from headerf -> token_eq (parse_address headerv) (stored p) ->
     w' = w) /\
    (~ is_from headerf -> w' = w).
Proof. exact (mlfi_header_active w p headerf headerv). Qed.

Lemma mlfi_header_from_check_witness :
  exists r w',
    @mlfi_header libmilter_mfdef (cstr "FROM") (cstr "Bob <bob@example.com>")
      (busy alice) = Done r w' /\
    (is_from (cstr "FROM") ->
     ~ token_eq (parse_address (cstr "Bob <bob@example.com>")) (stored alice) ->
     w' = with_priv (busy alice) (Some (with_reject alice 1))) /\
    (is_from (cstr "FROM") ->
     token_eq (parse_address (cstr "Bob <bob@example.com>")) (stored alice) ->
     w' = busy alice) /\
    (~ is_from (cstr "FROM") -> w' = busy alice).
Proof.
  apply (@mlfi_header_from_check libmilter_mfdef (busy alice) alice
           (cstr "FROM") (cstr "Bob <bob@example.com>")).
  - reflexivity.
  - vm_compute. discriminate.
  - reflexivity.
  - repeat constructor; discriminate.
  - repeat constructor; discriminate.
  - unfold fits_int. vm_compute. discriminate.
Defined.

(** ** End of message, abort and cleanup *)

Lemma mlfi_cleanup_session w p :
  ctx_priv w = Some p -> mlfi_cleanup w = Done tt (destroyed w).
Proof.
  intros Hp. unfold mlfi_cleanup, bind, smfi_getpriv. now rewrite Hp.
Qed.

Lemma mlfi_cleanup_absent w : ctx_priv w = None -> mlfi_cleanup w = Done tt w.
Proof.
  intros Hp. unfold mlfi_cleanup, bind, smfi_getpriv. now rewrite Hp.
Qed.

(** C4. End of message on a context that carries a session.  With
    [reject] set the reply becomes the triple 550, 5.7.1, "Rejected due to
    unmatching envelope and header sender.", the session is destroyed and
    the callback returns [SMFIS_REJECT]; with [reject] clear the session is
    destroyed, the reply is left as it was and the callback returns
    [SMFIS_CONTINUE]. *)
Theorem mlfi_eom_verdict (w : world) (p : mlfiPriv) :
  ctx_priv w = Some p ->
  (reject p <> 0 ->
   exists w', mlfi_eom w = Done SMFIS_REJECT w' /\
              w' = destroyed (with_reply w (Some reject_reply)) /\
              ctx_reply w' = Some reject_reply /\ ctx_priv w' = None) /\
  (reject p = 0 ->
   exists w', mlfi_eom w = Done SMFIS_CONTINUE w' /\
              w' = destroyed w /\
              ctx_reply w' = ctx_reply w /\ ctx_priv w' = None).
Proof.
  intros Hp. unfold mlfi_eom, bind, smfi_getpriv, deref. rewrite Hp.
  split; intros Hr.
  - destruct (Z.eqb_spec (reject p) 0) as [?|_]; [contradiction|].
    cbn [negb]. unfold smfi_setreply.
    rewrite (mlfi_cleanup_session _ p) by exact Hp.
    eexists. repeat split.
  - rewrite Hr. cbn [Z.eqb negb].
    rewrite (mlfi_cleanup_session _ p) by exact Hp.
    eexists. repeat split.
Qed.

Lemma mlfi_eom_verdict_witness :
  exists w', mlfi_eom (busy (with_reject alice 1)) = Done SMFIS_REJECT w' /\
             w' = destroyed (with_reply (busy (with_reject alice 1))
                               (Some reject_reply)) /\
             ctx_reply w' = Some reject_reply /\ ctx_priv w' = None.
Proof.
  refine (proj1 (mlfi_eom_verdict (busy (with_reject alice 1))
                   (with_reject alice 1) _) _).
  - reflexivity.
  - vm_compute. discriminate.
Defined.

(** C5, on the code.  A header event and an end-of-message event on a
    context whose private-data slot is null do not return: both callbacks
    read a field of the session through the null pointer. *)
Theorem header_and_eom_without_session `{mfdef} (headerf headerv : cstring)
    (symval : cstring -> option cstring)
    (reply : option (cstring * cstring * cstring)) (caps : Z)
    (oracle : list bool) (live : nat) :
  let w := {| ctx_priv := None; ctx_symval := symval; ctx_reply := reply;
              mta_caps := caps; heap_oracle := oracle; heap_live := live |} in
  mlfi_header headerf headerv w = Fault /\ mlfi_eom w = Fault.
Proof. split; reflexivity. Qed.

(** C8. An abort event destroys the session, if there is one, sets no
    reply and returns [SMFIS_CONTINUE]; cleanup in the state that abort
    leaves, and in any state without a session, changes nothing. *)
Theorem mlfi_abort_destroys (w : world) :
  (exists w',
      mlfi_abort w = Done SMFIS_CONTINUE w' /\
      w' = match ctx_priv w with Some _ => destroyed w | None => w end /\
      ctx_priv w' = None /\ ctx_reply w' = ctx_reply w /\
      mlfi_cleanup w' = Done tt w') /\
  mlfi_cleanup (with_priv w None) = Done tt (with_priv w None).
Proof.
  split; [|reflexivity].
  unfold mlfi_abort, bind, ret. destruct (ctx_priv w) as [p|] eqn:Hp.
  - rewrite (mlfi_cleanup_session w p Hp). eexists. repeat split.
  - rewrite (mlfi_cleanup_absent w Hp). eexists. repeat split.
    + exact Hp.
    + now apply mlfi_cleanup_absent.
Qed.

(** ** Negotiation *)

Ltac bitwise :=
  apply Z.bits_inj'; intros ? _;
  rewrite ?Z.land_spec, ?Z.lor_spec;
  repeat match goal with
         | |- context [Z.testbit ?a ?n] => destruct (Z.testbit a n)
         end;
  reflexivity.

Lemma land_lor_l a b : Z.land (Z.lor a b) a = a.
Proof. bitwise. Qed.

Lemma land_lor_r a b : Z.land (Z.lor a b) b = b.
Proof. bitwise. Qed.

Lemma land_lor_keep a b c : Z.land a c = c -> Z.land (Z.lor a b) c = c.
Proof.
  intros Ha. rewrite <- Ha at 2. rewrite <- (land_lor_l a b) at 2.
  rewrite <- Z.land_assoc. now rewrite Ha.
Qed.

Lemma mlfi_header_reply `{mfdef} w headerf headerv r w' :
  mlfi_header headerf headerv w = Done r w' -> r = header_reply (mta_caps w).
Proof.
  destruct (ctx_priv w) as [p|] eqn:Hp.
  - rewrite (mlfi_header_session w p headerf headerv Hp). now intros [= <- _].
  - unfold mlfi_header, bind, smfi_getpriv, deref. rewrite Hp. discriminate.
Qed.

(** C7. Negotiation always returns [SMFIS_CONTINUE]; the mask it requests
    in [*pf1] holds the bits that switch off the connection, HELO and
    recipient steps; it holds the no-reply-for-headers bit exactly when the
    offered mask [f1] holds it; and [f1] is stored in [mta_caps], from which
    later header events take their return value.  (The bit for headers is
    distinct from the three others, as in libmilter.) *)
Theorem mlfi_negotiate_request `{mfdef} (w : world) (f0 f1 f2 f3 : Z) :
  Z.land (Z.lor (Z.lor SMFIP_NOCONNECT SMFIP_NOHELO) SMFIP_NORCPT)
    SMFIP_NR_HDR = 0 ->
  exists pf1,
    mlfi_negotiate f0 f1 f2 f3 w =
    Done (SMFIS_CONTINUE, (0, pf1, 0, 0)) (with_caps w f1) /\
    Z.land pf1 SMFIP_NOCONNECT = SMFIP_NOCONNECT /\
    Z.land pf1 SMFIP_NOHELO = SMFIP_NOHELO /\
    Z.land pf1 SMFIP_NORCPT = SMFIP_NORCPT /\
    (Z.land pf1 SMFIP_NR_HDR <> 0 <-> Z.land f1 SMFIP_NR_HDR <> 0) /\
    (Z.land f1 SMFIP_NR_HDR <> 0 -> Z.land pf1 SMFIP_NR_HDR = SMFIP_NR_HDR) /\
    mta_caps (with_caps w f1) = f1 /\
    (forall headerf headerv r w',
        mlfi_header headerf headerv (with_caps w f1) = Done r w' ->
        r = header_reply f1).
Proof.
  intros Hdisjoint.
  unfold mlfi_negotiate, bind, set_mta_caps, get_mta_caps, ret.
  cbn [mta_caps with_caps].
  eexists. split; [reflexivity|].
  assert (Hsteps :
    forall m, Z.land m SMFIP_NOCONNECT = SMFIP_NOCONNECT /\
              Z.land m SMFIP_NOHELO = SMFIP_NOHELO /\
              Z.land m SMFIP_NORCPT = SMFIP_NORCPT ->
              Z.land (Z.lor m SMFIP_NR_HDR) SMFIP_NOCONNECT = SMFIP_NOCONNECT /\
              Z.land (Z.lor m SMFIP_NR_HDR) SMFIP_NOHELO = SMFIP_NOHELO /\
              Z.land (Z.lor m SMFIP_NR_HDR) SMFIP_NORCPT = SMFIP_NORCPT).
  { intros m (H1 & H2 & H3). repeat split; now apply land_lor_keep. }
  assert (Hbase :
    Z.land (Z.lor (Z.lor SMFIP_NOCONNECT SMFIP_NOHELO) SMFIP_NORCPT)
      SMFIP_NOCONNECT = SMFIP_NOCONNECT /\
    Z.land (Z.lor (Z.lor SMFIP_NOCONNECT SMFIP_NOHELO) SMFIP_NORCPT)
      SMFIP_NOHELO = SMFIP_NOHELO /\
    Z.land (Z.lor (Z.lor SMFIP_NOCONNECT SMFIP_NOHELO) SMFIP_NORCPT)
      SMFIP_NORCPT = SMFIP_NORCPT).
  { repeat split.
    - apply land_lor_keep, land_lor_l.
    - apply land_lor_keep, land_lor_r.
    - apply land_lor_r. }
  destruct (Z.eqb_spec (Z.land f1 SMFIP_NR_HDR) 0) as [Hoff|Hon]; cbn [negb].
  - destruct Hbase as (H1 & H2 & H3).
    repeat (split; [assumption|]).
    split; [rewrite Hdisjoint, Hoff; tauto|].
    split; [intros Hno; contradiction|].
    split; [reflexivity|].
    intros headerf headerv r w' Hrun.
    now apply mlfi_header_reply in Hrun.
  - destruct (Hsteps _ Hbase) as (H1 & H2 & H3).
    repeat (split; [assumption|]).
    assert (Hin : Z.land (Z.lor (Z.lor (Z.lor SMFIP_NOCONNECT SMFIP_NOHELO)
                                   SMFIP_NORCPT) SMFIP_NR_HDR) SMFIP_NR_HDR
                  = SMFIP_NR_HDR) by apply land_lor_r.
    split.
    { rewrite Hin. split; [intros _; exact Hon|].
      intros _ Hz. apply Hon. rewrite Hz. apply Z.land_0_r. }
    split; [intros _; exact Hin|].
    split; [reflexivity|].
    intros headerf headerv r w' Hrun.
    now apply mlfi_header_reply in Hrun.
Qed.

Lemma mlfi_negotiate_request_witness :
  exists pf1,
    @mlfi_negotiate libmilter_mfdef 0 255 0 0 (idle true 0) =
    Done (SMFIS_CONTINUE, (0, pf1, 0, 0)) (with_caps (idle true 0) 255) /\
    Z.land pf1 1 = 1 /\ Z.land pf1 2 = 2 /\ Z.land pf1 8 = 8 /\
    (Z.land pf1 128 <> 0 <-> Z.land 255 128 <> 0) /\
    (Z.land 255 128 <> 0 -> Z.land pf1 128 = 128) /\
    mta_caps (with_caps (idle true 0) 255) = 255 /\
    (forall headerf headerv r w',
        @mlfi_header libmilter_mfdef headerf headerv
          (with_caps (idle true 0) 255) = Done r w' ->
        r = @header_reply libmilter_mfdef 255).
Proof.
  apply (@mlfi_negotiate_request libmilter_mfdef (idle true 0) 0 255 0 0).
  reflexivity.
Defined.

(** ** The envelope sender *)

Lemma take_length n s : 0 <= n <= strlen s -> strlen (take n s) = n.
Proof.
  unfold strlen. intros Hn. rewrite take_firstn, length_firstn. lia.
Qed.

(** C9. An envelope-sender event.  When a request for memory is refused
    (that for the session record, or that for the copy of the address) the
    callback returns [SMFIS_TEMPFAIL] and installs nothing; when both are
    served it returns [SMFIS_CONTINUE] with a session installed whose
    address is the slice that [parse_address] extracts from the envelope
    value, whose stored length is the length of that copy, whose [is_auth]
    tells whether the macro [{auth_type}] has a value, and whose [reject]
    is clear. *)
Theorem mlfi_envfrom_session (w : world) (envfrom : cstring) :
  fits_int envfrom ->
  (served w 0 = false \/ served w 1 = false ->
   exists w',
     mlfi_envfrom envfrom w = Done SMFIS_TEMPFAIL w' /\
     ctx_priv w' = ctx_priv w /\ ctx_reply w' = ctx_reply w) /\
  (served w 0 = true -> served w 1 = true ->
   exists w' p,
     mlfi_envfrom envfrom w = Done SMFIS_CONTINUE w' /\
     ctx_priv w' = Some p /\
     env_from p = slice (parse_address envfrom) /\
     env_from_len p = snd (parse_address envfrom) /\
     env_from_len p = strlen (env_from p) /\
     (is_auth p <> 0 <-> authenticated w) /\
     reject p = 0).
Proof.
  intros Hfit.
  destruct (parse_address_view envfrom Hfit) as [_ [Hlen Hmax]].
  unfold served, mlfi_envfrom, malloc, strndup, allocate, bind, ret,
    smfi_getsymval, smfi_setpriv, authenticated, slice.
  destruct (parse_address envfrom) as [from len]. cbn [fst snd] in *.
  rewrite size_t_of_id by lia.
  destruct (heap_oracle w) as [|[|] [|[|] o]]; cbn -[cstr take];
    (split; [intros [Hs|Hs]; try discriminate Hs; eexists; repeat split
            |intros Hs0 Hs1; try discriminate Hs0; try discriminate Hs1]).
  all: eexists _, _; split; [reflexivity|]; cbn -[cstr take].
  all: split; [reflexivity|]; split; [reflexivity|]; split; [reflexivity|].
  all: split; [symmetry; now apply take_length|].
  all: split; [|reflexivity].
  all: cbn [is_auth]; destruct (ctx_symval w (cstr "{auth_type}")).
  all: split; intros Ha Hb; (discriminate Hb || now apply Ha).
Qed.

Lemma mlfi_envfrom_session_witness :
  exists w' p,
    mlfi_envfrom (cstr "<alice@example.com>") (idle true 0)
    = Done SMFIS_CONTINUE w' /\
    ctx_priv w' = Some p /\
    env_from p = slice (parse_address (cstr "<alice@example.com>")) /\
    env_from_len p = snd (parse_address (cstr "<alice@example.com>")) /\
    env_from_len p = strlen (env_from p) /\
    (is_auth p <> 0 <-> authenticated (idle true 0)) /\
    reject p = 0.
Proof.
  refine (proj2 (mlfi_envfrom_session (idle true 0)
                   (cstr "<alice@example.com>") _) _ _).
  - unfold fits_int. vm_compute. discriminate.
  - reflexivity.
  - reflexivity.
Defined.

(** What an envelope-sender event that returns [SMFIS_CONTINUE] leaves in
    the private-data slot. *)
Lemma mlfi_envfrom_continue w envfrom w1 :
  mlfi_envfrom envfrom w = Done SMFIS_CONTINUE w1 ->
  exists p, ctx_priv w1 = Some p /\ reject p = 0 /\
            (is_auth p <> 0 <-> authenticated w).
Proof.
  unfold mlfi_envfrom, malloc, strndup, allocate, bind, ret, smfi_getsymval,
    smfi_setpriv, authenticated.
  generalize (cstr "{auth_type}"). intros name.
  destruct (parse_address envfrom) as [from len].
  destruct (heap_oracle w) as [|[|] [|[|] o]]; cbn -[take];
    intros [= <-]; eexists; (split; [reflexivity|]); (split; [reflexivity|]).
  all: cbn [is_auth]; destruct (ctx_symval w name).
  all: split; intros Ha Hb; (discriminate Hb || now apply Ha).
Qed.

Lemma mlfi_envfrom_returns w envfrom :
  returns (mlfi_envfrom envfrom w) SMFIS_CONTINUE \/
  returns (mlfi_envfrom envfrom w) SMFIS_TEMPFAIL.
Proof.
  unfold returns, mlfi_envfrom, malloc, strndup, allocate, bind, ret,
    smfi_getsymval, smfi_setpriv.
  destruct (parse_address envfrom) as [from len].
  destruct (heap_oracle w) as [|[|] [|[|] o]]; cbn -[cstr take];
    ((left; eexists; reflexivity) || (right; eexists; reflexivity)).
Qed.

(** ** Verdicts *)

Lemma header_reply_cases `{mfdef} caps :
  header_reply caps = SMFIS_NOREPLY \/ header_reply caps = SMFIS_CONTINUE.
Proof.
  unfold header_reply. destruct (negb (Z.land caps SMFIP_NR_HDR =? 0)); tauto.
Qed.

Lemma returns_inj {A : Type} (r : result A) (a b : A) :
  returns r a -> returns r b -> a = b.
Proof. intros [wa Ha] [wb Hb]. congruence. Qed.

(** C10. [SMFIS_REJECT] comes from the end-of-message callback alone.  In
    every state and on every input, the envelope-sender callback returns
    [SMFIS_CONTINUE] or [SMFIS_TEMPFAIL]; the header callback, when the
    context carries a session, returns [SMFIS_NOREPLY] or [SMFIS_CONTINUE]
    as [mta_caps] alone decides, and returns nothing when there is no
    session; abort and negotiation return [SMFIS_CONTINUE]. *)
Theorem only_eom_rejects `{mfdef} (w : world) (envfrom headerf headerv : cstring)
    (f0 f1 f2 f3 : Z) :
  (returns (mlfi_envfrom envfrom w) SMFIS_CONTINUE \/
   returns (mlfi_envfrom envfrom w) SMFIS_TEMPFAIL) /\
  match ctx_priv w with
  | Some _ =>
      returns (mlfi_header headerf headerv w) (header_reply (mta_caps w))
  | None => mlfi_header headerf headerv w = Fault
  end /\
  (header_reply (mta_caps w) = SMFIS_NOREPLY \/
   header_reply (mta_caps w) = SMFIS_CONTINUE) /\
  returns (mlfi_abort w) SMFIS_CONTINUE /\
  (exists pf, returns (mlfi_negotiate f0 f1 f2 f3 w) (SMFIS_CONTINUE, pf)) /\
  ~ returns (mlfi_envfrom envfrom w) SMFIS_REJECT /\
  ~ returns (mlfi_header headerf headerv w) SMFIS_REJECT /\
  ~ returns (mlfi_abort w) SMFIS_REJECT /\
  (forall pf, ~ returns (mlfi_negotiate f0 f1 f2 f3 w) (SMFIS_REJECT, pf)).
Proof.
  assert (Habort : returns (mlfi_abort w) SMFIS_CONTINUE).
  { unfold returns, mlfi_abort, bind, ret.
    destruct (ctx_priv w) as [p|] eqn:Hp.
    - rewrite (mlfi_cleanup_session w p Hp). now eexists.
    - rewrite (mlfi_cleanup_absent w Hp). now eexists. }
  assert (Hneg : exists pf,
             returns (mlfi_negotiate f0 f1 f2 f3 w) (SMFIS_CONTINUE, pf)).
  { eexists. unfold returns, mlfi_negotiate, bind, set_mta_caps,
      get_mta_caps, ret. eexists. reflexivity. }
  repeat apply conj.
  - apply mlfi_envfrom_returns.
  - destruct (ctx_priv w) as [p|] eqn:Hp.
    + rewrite (mlfi_header_session w p headerf headerv Hp). now eexists.
    + unfold mlfi_header, bind, smfi_getpriv, deref. now rewrite Hp.
  - apply header_reply_cases.
  - exact Habort.
  - exact Hneg.
  - intros Hr. destruct (mlfi_envfrom_returns w envfrom) as [Hc|Hc];
      pose proof (returns_inj _ _ _ Hr Hc); discriminate.
  - intros [w' Hr]. apply mlfi_header_reply in Hr.
    destruct (header_reply_cases (mta_caps w)); congruence.
  - intros Hr. pose proof (returns_inj _ _ _ Hr Habort). discriminate.
  - intros pf Hr. destruct Hneg as [pf' Hc].
    pose proof (returns_inj _ _ _ Hr Hc). discriminate.
Qed.

(** ** A whole message *)

(** Headers are not inspected for a sender who is not authenticated, nor
    once [reject] is set: the flag stays set. *)
Lemma mlfi_header_settled `{mfdef} w p headerf headerv :
  ctx_priv w = Some p -> is_auth p = 0 \/ reject p <> 0 ->
  mlfi_header headerf headerv w = Done (header_reply (mta_caps w)) w.
Proof.
  intros Hp Hskip. rewrite (mlfi_header_session w p headerf headerv Hp).
  destruct Hskip as [Ha|Hr].
  - now rewrite Ha.
  - destruct (Z.eqb_spec (reject p) 0) as [?|_]; [contradiction|].
    now rewrite andb_false_r.
Qed.

Lemma mlfi_headers_settled `{mfdef} hs w p :
  ctx_priv w = Some p -> is_auth p = 0 \/ reject p <> 0 ->
  mlfi_headers hs w = Done tt w.
Proof.
  intros Hp Hskip. induction hs as [|[headerf headerv] hs IH];
    [reflexivity|].
  cbn [mlfi_headers]. unfold bind.
  now rewrite (mlfi_header_settled w p headerf headerv Hp Hskip).
Qed.

(** The two tests of [mlfi_header] hold together on the mismatching
    [From] headers. *)
Lemma header_tests_mismatch p h :
  header_ok h ->
  (strcasecmp (fst h) (cstr "from") =? 0)
  && (negb (snd (parse_address (snd h)) =? env_from_len p)
      || negb (strncasecmp (fst (parse_address (snd h))) (env_from p)
                 (size_t_of (snd (parse_address (snd h)))) =? 0)) = true <->
  mismatch p h.
Proof.
  intros (Hf & Hv & Hfit). unfold mismatch, is_from.
  rewrite andb_true_iff, Z.eqb_eq.
  rewrite (strcasecmp_zero (fst h) (cstr "from") Hf nul_free_from).
  now rewrite (header_test_mismatch p (snd h) Hv Hfit).
Qed.

Lemma mlfi_headers_active `{mfdef} hs :
  forall w p,
    ctx_priv w = Some p -> is_auth p <> 0 -> reject p = 0 ->
    Forall header_ok hs ->
    (Exists (mismatch p) hs /\
     mlfi_headers hs w = Done tt (with_priv w (Some (with_reject p 1)))) \/
    (~ Exists (mismatch p) hs /\ mlfi_headers hs w = Done tt w).
Proof.
  induction hs as [|h hs IH]; intros w p Hp Hauth Hrej Hok.
  - right. split; [|reflexivity]. intros Hex. inversion Hex.
  - pose proof (header_tests_mismatch p h (Forall_inv Hok)) as Htests.
    destruct h as [headerf headerv]. cbn [fst snd] in Htests.
    cbn [mlfi_headers]. unfold bind.
    rewrite (mlfi_header_session w p headerf headerv Hp).
    destruct (Z.eqb_spec (is_auth p) 0) as [?|_]; [contradiction|].
    rewrite Hrej. cbn [negb andb Z.eqb].
    destruct ((strcasecmp headerf (cstr "from") =? 0) && _) eqn:Etest.
    + left. split; [left; now apply Htests|].
      apply (mlfi_headers_settled hs _ (with_reject p 1)); [reflexivity|].
      right. discriminate.
    + destruct (IH w p Hp Hauth Hrej (Forall_inv_tail Hok))
        as [[Hex Hrun]|[Hno Hrun]].
      * left. split; [now right|exact Hrun].
      * right. split; [|exact Hrun].
        intros Hex. inversion Hex as [? ? Hhere|? ? Hlater]; subst.
        -- apply Htests in Hhere. discriminate.
        -- contradiction.
Qed.

Lemma mlfi_eom_session w p :
  ctx_priv w = Some p ->
  exists w', mlfi_eom w =
             Done (if reject p =? 0 then SMFIS_CONTINUE else SMFIS_REJECT) w'.
Proof.
  intros Hp. unfold mlfi_eom, bind, smfi_getpriv, deref, smfi_setreply, ret.
  rewrite Hp. destruct (reject p =? 0); cbn [negb].
  - rewrite (mlfi_cleanup_session _ p) by exact Hp. now eexists.
  - rewrite (mlfi_cleanup_session _ p) by exact Hp. now eexists.
Qed.

(** C1. A message: an envelope-sender event that installs a session, the
    header events, the end-of-message event.  The verdict of the last one
    is [SMFIS_REJECT] exactly when the session is authenticated and some
    header named [from], up to case, carries an address that differs from
    the stored one (in length, or in bytes compared without case), and is
    [SMFIS_CONTINUE] otherwise; so a sender who is not authenticated is
    never rejected, and one mismatching [From] header among several
    rejects, since a header event on a session whose [reject] is set
    changes nothing. *)
Theorem message_verdict `{mfdef} (w w1 : world) (envfrom : cstring)
    (hs : list (cstring * cstring)) :
  Forall header_ok hs ->
  mlfi_envfrom envfrom w = Done SMFIS_CONTINUE w1 ->
  exists p v w2,
    ctx_priv w1 = Some p /\
    (is_auth p <> 0 <-> authenticated w) /\
    (mlfi_headers hs ;;; mlfi_eom) w1 = Done v w2 /\
    (v = SMFIS_REJECT <-> is_auth p <> 0 /\ Exists (mismatch p) hs) /\
    (v = SMFIS_REJECT \/ v = SMFIS_CONTINUE) /\
    (is_auth p = 0 -> v = SMFIS_CONTINUE) /\
    (forall w' p' headerf headerv,
        ctx_priv w' = Some p' -> reject p' <> 0 ->
        mlfi_header headerf headerv w' =
        Done (header_reply (mta_caps w')) w').
Proof.
  intros Hok Henv.
  destruct (mlfi_envfrom_continue w envfrom w1 Henv) as (p & Hp & Hrej & Hauth).
  assert (Hsticky :
    forall w' p' headerf headerv,
      ctx_priv w' = Some p' -> reject p' <> 0 ->
      mlfi_header headerf headerv w' = Done (header_reply (mta_caps w')) w').
  { intros w' p' headerf headerv Hp' Hr'.
    apply (mlfi_header_settled w' p'); [exact Hp'|now right]. }
  exists p. unfold bind.
  destruct (Z.eq_dec (is_auth p) 0) as [Hno|Hyes].
  - rewrite (mlfi_headers_settled hs w1 p Hp (or_introl Hno)).
    destruct (mlfi_eom_session w1 p Hp) as [w2 Heom].
    rewrite Hrej in Heom. cbn [Z.eqb] in Heom.
    exists SMFIS_CONTINUE, w2.
    split; [exact Hp|]. split; [exact Hauth|]. split; [exact Heom|].
    split; [split; [discriminate|intros [Ha _]; contradiction]|].
    split; [now right|]. split; [reflexivity|exact Hsticky].
  - destruct (mlfi_headers_active hs w1 p Hp Hyes Hrej Hok)
      as [[Hex Hrun]|[Hnone Hrun]]; rewrite Hrun.
    + destruct (mlfi_eom_session (with_priv w1 (Some (with_reject p 1)))
                  (with_reject p 1) eq_refl) as [w2 Heom].
      cbn [reject with_reject Z.eqb] in Heom.
      exists SMFIS_REJECT, w2.
      split; [exact Hp|]. split; [exact Hauth|]. split; [exact Heom|].
      split; [split; [intros _; now split|reflexivity]|].
      split; [now left|]. split; [intros Hz; contradiction|exact Hsticky].
    + destruct (mlfi_eom_session w1 p Hp) as [w2 Heom].
      rewrite Hrej in Heom. cbn [Z.eqb] in Heom.
      exists SMFIS_CONTINUE, w2.
      split; [exact Hp|]. split; [exact Hauth|]. split; [exact Heom|].
      split; [split; [discriminate|intros [_ Hex]; contradiction]|].
      split; [now right|]. split; [reflexivity|exact Hsticky].
Qed.

Ltac c_string := repeat constructor; discriminate.
Ltac short_string := unfold fits_int; vm_compute; discriminate.

Lemma message_verdict_witness :
  exists p v w2,
    ctx_priv (busy alice) = Some p /\
    (is_auth p <> 0 <-> authenticated (idle true 0)) /\
    (@mlfi_headers libmilter_mfdef
       [(cstr "From", cstr "Alice <ALICE@example.com>");
        (cstr "FROM", cstr "Bob <bob@example.com>")] ;;; mlfi_eom)
      (busy alice) = Done v w2 /\
    (v = SMFIS_REJECT <->
     is_auth p <> 0 /\
     Exists (mismatch p)
       [(cstr "From", cstr "Alice <ALICE@example.com>");
        (cstr "FROM", cstr "Bob <bob@example.com>")]) /\
    (v = SMFIS_REJECT \/ v = SMFIS_CONTINUE) /\
    (is_auth p = 0 -> v = SMFIS_CONTINUE) /\
    (forall w' p' headerf headerv,
        ctx_priv w' = Some p' -> reject p' <> 0 ->
        @mlfi_header libmilter_mfdef headerf headerv w' =
        Done (@header_reply libmilter_mfdef (mta_caps w')) w').
Proof.
  apply (@message_verdict libmilter_mfdef (idle true 0) (busy alice)
           (cstr "<alice@example.com>")).
  - repeat (constructor; [repeat split; (c_string || short_string)|]).
    constructor.
  - reflexivity.
Defined.

(** ** The sample messages of the specification *)

Example display_name_accepted :
  returns (sample_message true (cstr "<alice@example.com>")
             [(cstr "From", cstr "Alice <alice@example.com>")])
    SMFIS_CONTINUE.
Proof. eexists. reflexivity. Qed.

Example other_sender_rejected :
  exists w', sample_message true (cstr "<alice@example.com>")
               [(cstr "From", cstr "bob@example.com")]
             = Done SMFIS_REJECT w' /\
             ctx_reply w' = Some reject_reply /\ ctx_priv w' = None.
Proof. eexists. repeat split. Qed.

Example one_mismatch_among_two_rejected :
  returns (sample_message true (cstr "<alice@example.com>")
             [(cstr "From", cstr "bob@example.com");
              (cstr "From", cstr "Alice <alice@example.com>")])
    SMFIS_REJECT.
Proof. eexists. reflexivity. Qed.

Example unauthenticated_accepted :
  returns (sample_message false (cstr "<alice@example.com>")
             [(cstr "From", cstr "bob@example.com")])
    SMFIS_CONTINUE.
Proof. eexists. reflexivity. Qed.

Example case_is_ignored :
  returns (sample_message true (cstr "user@example.com")
             [(cstr "fRoM", cstr "<User@Example.com>")])
    SMFIS_CONTINUE.
Proof. eexists. reflexivity. Qed.

Example length_is_exact :
  returns (sample_message true (cstr "a@b.com") [(cstr "From", cstr "a@b.co")])
    SMFIS_REJECT.
Proof. eexists. reflexivity. Qed.

(** * Further properties *)

(** ** The address extractor *)

(** Where the token lies in the input. *)
Lemma parse_address_stretch (address : cstring) :
  fits_int address ->
  exists pre post,
    address = pre ++ slice (parse_address address) ++ post /\
    fst (parse_address address) = slice (parse_address address) ++ post /\
    snd (parse_address address) = strlen (slice (parse_address address)) /\
    0 <= snd (parse_address address) <= strlen address.
Proof.
  intros Hfit.
  destruct (parse_address_view address Hfit) as [[k Hk] [Hlen Hmax]].
  unfold slice. rewrite take_firstn.
  exists (firstn k address),
    (skipn (Z.to_nat (snd (parse_address address))) (fst (parse_address address))).
  rewrite firstn_skipn. rewrite Hk at 1. rewrite firstn_skipn.
  repeat split; try lia.
  - rewrite <- take_firstn. symmetry. now apply take_length.
  - rewrite Hk in Hlen. unfold strlen in *. rewrite length_skipn in Hlen. lia.
Qed.

(** X1. The token that [parse_address] returns lies inside its argument:
    the pointer and the length denote a stretch of the input, and the
    length is that of the stretch. *)
Theorem parse_address_within (address : cstring) :
  fits_int address ->
  exists pre post,
    address = pre ++ slice (parse_address address) ++ post /\
    fst (parse_address address) = slice (parse_address address) ++ post /\
    snd (parse_address address) = strlen (slice (parse_address address)) /\
    0 <= snd (parse_address address) <= strlen address.
Proof. exact (parse_address_stretch address). Qed.

Lemma parse_address_within_witness :
  exists pre post,
    cstr "Max <max@example.invalid> (home)" =
    pre ++ slice (parse_address (cstr "Max <max@example.invalid> (home)"))
        ++ post /\
    fst (parse_address (cstr "Max <max@example.invalid> (home)")) =
    slice (parse_address (cstr "Max <max@example.invalid> (home)")) ++ post /\
    snd (parse_address (cstr "Max <max@example.invalid> (home)")) =
    strlen (slice (parse_address (cstr "Max <max@example.invalid> (home)"))) /\
    0 <= snd (parse_address (cstr "Max <max@example.invalid> (home)"))
      <= strlen (cstr "Max <max@example.invalid> (home)").
Proof.
  apply (parse_address_within (cstr "Max <max@example.invalid> (home)")).
  unfold fits_int. vm_compute. discriminate.
Defined.

(** Inputs that are returned whole. *)
Lemma parse_address_whole (a b : cstring) :
  ~ In "<"%char a -> ~ In ">"%char b -> fits_int (a ++ b) ->
  parse_address (a ++ b) = (a ++ b, strlen (a ++ b)).
Proof.
  intros Ha Hb Hfit. rewrite (parse_address_eq _ Hfit).
  rewrite !last_index_app.
  rewrite (last_index_absent _ _ Ha), (last_index_absent _ _ Hb).
  destruct (last_index "<" b) as [o|]; [|reflexivity].
  destruct (last_index ">" a) as [c|] eqn:Ec; [|reflexivity].
  apply last_index_lt in Ec.
  destruct (Nat.ltb_spec (List.length a + o) c) as [?|_]; [lia|reflexivity].
Qed.

(** X2. When no ['<'] comes before a ['>'] (there is no ['<'], or no
    ['>'], or every ['>'] stands before every ['<']), the whole input is
    returned. *)
Theorem parse_address_no_pair (a b : cstring) :
  ~ In "<"%char a -> ~ In ">"%char b -> fits_int (a ++ b) ->
  parse_address (a ++ b) = (a ++ b, strlen (a ++ b)).
Proof. exact (parse_address_whole a b). Qed.

Lemma parse_address_no_pair_witness :
  parse_address (cstr "a> b" ++ cstr " <c") =
  (cstr "a> b" ++ cstr " <c", strlen (cstr "a> b" ++ cstr " <c")).
Proof.
  apply (parse_address_no_pair (cstr "a> b") (cstr " <c")).
  - vm_compute. intuition discriminate.
  - vm_compute. intuition discriminate.
  - unfold fits_int. vm_compute. discriminate.
Defined.

Lemma between_no_open s o c :
  last_index "<" s = Some o -> ~ In "<"%char (between o c s).
Proof.
  intros Ho Hin. apply last_index_Some in Ho. destruct Ho as [_ Hlast].
  unfold between in Hin.
  assert (Hin' : In "<"%char (skipn (S o) s)).
  { rewrite <- (firstn_skipn (c - o - 1) (skipn (S o) s)).
    apply in_or_app. now left. }
  apply In_nth_error in Hin'. destruct Hin' as [i Hi].
  rewrite nth_error_skipn in Hi.
  apply (Hlast (S o + i)%nat); [lia|exact Hi].
Qed.

(** A token that is not the whole input holds no ['<']. *)
Lemma parse_address_slice_cases address :
  fits_int address ->
  parse_address address = (address, strlen address) \/
  ~ In "<"%char (slice (parse_address address)).
Proof.
  intros Hfit. rewrite (parse_address_eq address Hfit).
  destruct (last_index "<" address) as [o|] eqn:Eo; [|now left].
  destruct (last_index ">" address) as [c|]; [|now left].
  destruct (o <? c)%nat; [|now left].
  right. rewrite slice_between. now apply between_no_open.
Qed.

(** X3. Extraction is idempotent: the extractor returns its own result
    unchanged. *)
Theorem parse_address_idempotent (address : cstring) :
  fits_int address ->
  slice (parse_address (slice (parse_address address))) =
  slice (parse_address address).
Proof.
  intros Hfit.
  destruct (parse_address_slice_cases address Hfit) as [Hwhole|Hno].
  - rewrite Hwhole, slice_whole. now rewrite Hwhole, slice_whole.
  - destruct (parse_address_stretch address Hfit) as (pre & post & Ha & _ & _ & Hb).
    assert (Hfit' : fits_int (slice (parse_address address))).
    { unfold fits_int, strlen in *. rewrite Ha in Hfit.
      rewrite !length_app in Hfit. lia. }
    pose proof (parse_address_whole (slice (parse_address address)) [] Hno
                  (fun H => H)) as Hp.
    rewrite app_nil_r in Hp. rewrite (Hp Hfit'). apply slice_whole.
Qed.

Lemma parse_address_idempotent_witness :
  slice (parse_address
           (slice (parse_address (cstr "Max <max@example.invalid> (home)")))) =
  slice (parse_address (cstr "Max <max@example.invalid> (home)")).
Proof.
  apply (parse_address_idempotent (cstr "Max <max@example.invalid> (home)")).
  unfold fits_int. vm_compute. discriminate.
Defined.

(** ** Header events *)

(** X4. A header event that returns leaves the context as it is, but for the
    [reject] field of the session, which it may move from 0 to 1 when the
    session is authenticated: the stored address, the reply, [mta_caps] and
    the memory are never touched, and a [reject] that is set stays set. *)
Theorem mlfi_header_frame `{mfdef} (w w' : world) (headerf headerv : cstring)
    (r : sfsistat) :
  mlfi_header headerf headerv w = Done r w' ->
  exists p,
    ctx_priv w = Some p /\
    (w' = w \/
     is_auth p <> 0 /\ reject p = 0 /\
     w' = with_priv w (Some (with_reject p 1))) /\
    ctx_reply w' = ctx_reply w /\ mta_caps w' = mta_caps w /\
    heap_live w' = heap_live w /\ heap_oracle w' = heap_oracle w.
Proof.
  destruct (ctx_priv w) as [p|] eqn:Hp.
  - rewrite (mlfi_header_session w p headerf headerv Hp).
    destruct (Z.eqb_spec (is_auth p) 0) as [Ha|Ha]; cbn [negb andb].
    + intros [= _ <-]. exists p. repeat split. now left.
    + destruct (Z.eqb_spec (reject p) 0) as [Hr|Hr]; cbn [andb].
      * destruct (_ && _); intros [= _ <-]; exists p; repeat split;
          (now left) || (right; repeat split; assumption).
      * intros [= _ <-]. exists p. repeat split. now left.
  - unfold mlfi_header, bind, smfi_getpriv, deref. rewrite Hp. discriminate.
Qed.

Lemma mlfi_header_frame_witness :
  exists p,
    ctx_priv (busy alice) = Some p /\
    (with_priv (busy alice) (Some (with_reject alice 1)) = busy alice \/
     is_auth p <> 0 /\ reject p = 0 /\
     with_priv (busy alice) (Some (with_reject alice 1)) =
     with_priv (busy alice) (Some (with_reject p 1))) /\
    ctx_reply (with_priv (busy alice) (Some (with_reject alice 1))) =
    ctx_reply (busy alice) /\
    mta_caps (with_priv (busy alice) (Some (with_reject alice 1))) =
    mta_caps (busy alice) /\
    heap_live (with_priv (busy alice) (Some (with_reject alice 1))) =
    heap_live (busy alice) /\
    heap_oracle (with_priv (busy alice) (Some (with_reject alice 1))) =
    heap_oracle (busy alice).
Proof.
  apply (@mlfi_header_frame libmilter_mfdef (busy alice)
           (with_priv (busy alice) (Some (with_reject alice 1)))
           (cstr "From") (cstr "bob@example.com") SMFIS_CONTINUE).
  reflexivity.
Defined.

(** A header whose name is not [from] is transparent. *)
Lemma mlfi_header_other `{mfdef} w p headerf headerv :
  ctx_priv w = Some p -> nul_free headerf -> ~ is_from headerf ->
  mlfi_header headerf headerv w = Done (header_reply (mta_caps w)) w.
Proof.
  intros Hp Hf Hno. rewrite (mlfi_header_session w p headerf headerv Hp).
  destruct (Z.eqb_spec (strcasecmp headerf (cstr "from")) 0) as [Hz|_].
  - exfalso. apply Hno.
    now apply (strcasecmp_zero headerf (cstr "from") Hf nul_free_from).
  - now rewrite andb_false_r.
Qed.

(** X5. Headers of other names do not count: with a header that is not named
    [from] put anywhere among the headers of a message, the header events
    end in the same state. *)
Theorem mlfi_headers_skip_other `{mfdef} (hs1 hs2 : list (cstring * cstring))
    (h : cstring * cstring) (w : world) (p : mlfiPriv) :
  ctx_priv w = Some p -> nul_free (fst h) -> ~ is_from (fst h) ->
  mlfi_headers (hs1 ++ h :: hs2) w = mlfi_headers (hs1 ++ hs2) w.
Proof.
  intros Hp Hf Hno. revert w p Hp.
  induction hs1 as [|[headerf headerv] hs1 IH]; intros w p Hp.
  - destruct h as [hf hv]. cbn [app mlfi_headers fst] in *. unfold bind.
    now rewrite (mlfi_header_other w p hf hv Hp Hf Hno).
  - cbn [app mlfi_headers]. unfold bind.
    rewrite (mlfi_header_session w p headerf headerv Hp).
    destruct (_ && _).
    + now apply (IH _ (with_reject p 1)).
    + now apply (IH w p).
Qed.

Lemma mlfi_headers_skip_other_witness :
  @mlfi_headers libmilter_mfdef
    ([(cstr "From", cstr "bob@example.com")]
       ++ (cstr "Reply-To", cstr "eve@example.com")
       :: [(cstr "from", cstr "alice@example.com")]) (busy alice) =
  @mlfi_headers libmilter_mfdef
    ([(cstr "From", cstr "bob@example.com")]
       ++ [(cstr "from", cstr "alice@example.com")]) (busy alice).
Proof.
  apply (@mlfi_headers_skip_other libmilter_mfdef
           [(cstr "From", cstr "bob@example.com")]
           [(cstr "from", cstr "alice@example.com")]
           (cstr "Reply-To", cstr "eve@example.com") (busy alice) alice).
  - reflexivity.
  - repeat constructor; discriminate.
  - vm_compute. discriminate.
Defined.

(** X6. The order of the headers and their repetition do not count: two
    sequences made of the same headers end in the same state. *)
Theorem mlfi_headers_same_set `{mfdef} (hs hs' : list (cstring * cstring))
    (w : world) (p : mlfiPriv) :
  ctx_priv w = Some p -> Forall header_ok hs ->
  (forall h, In h hs <-> In h hs') ->
  mlfi_headers hs w = mlfi_headers hs' w.
Proof.
  intros Hp Hok Hsame.
  assert (Hok' : Forall header_ok hs').
  { rewrite Forall_forall in *. intros h Hh. apply Hok. now apply Hsame. }
  destruct (Z.eq_dec (is_auth p) 0) as [Ha|Ha].
  { now rewrite !(mlfi_headers_settled _ w p Hp (or_introl Ha)). }
  destruct (Z.eq_dec (reject p) 0) as [Hr|Hr].
  2: { now rewrite !(mlfi_headers_settled _ w p Hp (or_intror Hr)). }
  assert (Hex : Exists (mismatch p) hs <-> Exists (mismatch p) hs').
  { rewrite !Exists_exists. split; intros (h & Hin & Hm); exists h;
      (split; [now apply Hsame|exact Hm]). }
  destruct (mlfi_headers_active hs w p Hp Ha Hr Hok) as [[H1 ->]|[H1 ->]];
    destruct (mlfi_headers_active hs' w p Hp Ha Hr Hok') as [[H2 ->]|[H2 ->]];
    tauto.
Qed.

Lemma mlfi_headers_same_set_witness :
  @mlfi_headers libmilter_mfdef
    [(cstr "From", cstr "bob@example.com");
     (cstr "From", cstr "alice@example.com")] (busy alice) =
  @mlfi_headers libmilter_mfdef
    [(cstr "From", cstr "alice@example.com");
     (cstr "From", cstr "bob@example.com");
     (cstr "From", cstr "alice@example.com")] (busy alice).
Proof.
  apply (@mlfi_headers_same_set libmilter_mfdef
           [(cstr "From", cstr "bob@example.com");
            (cstr "From", cstr "alice@example.com")]
           [(cstr "From", cstr "alice@example.com");
            (cstr "From", cstr "bob@example.com");
            (cstr "From", cstr "alice@example.com")] (busy alice) alice).
  - reflexivity.
  - repeat (constructor; [repeat split; (c_string || short_string)|]).
    constructor.
  - intros h. cbn [In]. tauto.
Defined.

(** ** Envelope sender and message *)

Lemma take_take n s : take n (take n s) = take n s.
Proof.
  revert n. induction s as [|c s IH]; intros n; [reflexivity|].
  cbn [take]. destruct (0 <? n) eqn:E; [|reflexivity].
  cbn [take]. rewrite E. now rewrite IH.
Qed.

(** The session that a successful envelope-sender event installs stores
    the token extracted from the envelope value. *)
Lemma mlfi_envfrom_stored w envfrom w1 :
  fits_int envfrom ->
  mlfi_envfrom envfrom w = Done SMFIS_CONTINUE w1 ->
  exists p, ctx_priv w1 = Some p /\ reject p = 0 /\
            (is_auth p <> 0 <-> authenticated w) /\
            snd (stored p) = snd (parse_address envfrom) /\
            slice (stored p) = slice (parse_address envfrom).
Proof.
  intros Hfit.
  destruct (parse_address_view envfrom Hfit) as [_ [Hlen Hmax]].
  unfold mlfi_envfrom, malloc, strndup, allocate, bind, ret, smfi_getsymval,
    smfi_setpriv, authenticated, stored, slice.
  generalize (cstr "{auth_type}"). intros name.
  destruct (parse_address envfrom) as [from len]. cbn [fst snd] in *.
  rewrite size_t_of_id by lia.
  destruct (heap_oracle w) as [|[|] [|[|] o]]; cbn -[take];
    intros [= <-]; eexists; (split; [reflexivity|]); (split; [reflexivity|]).
  all: cbn [is_auth env_from env_from_len fst snd].
  all: split; [|split; [reflexivity|apply take_take]].
  all: destruct (ctx_symval w name).
  all: split; intros Ha Hb; (discriminate Hb || now apply Ha).
Qed.

Lemma token_eq_stored p envfrom tok :
  snd (stored p) = snd (parse_address envfrom) ->
  slice (stored p) = slice (parse_address envfrom) ->
  token_eq tok (stored p) <-> token_eq tok (parse_address envfrom).
Proof. unfold token_eq. intros -> ->. tauto. Qed.

(** X7. A message from its inputs: after an envelope-sender event that
    returns [SMFIS_CONTINUE], the header events and the end-of-message
    event return, and the verdict is [SMFIS_REJECT] exactly when the
    connection is authenticated and a header named [from] carries an
    address that differs, as a token, from the address of the envelope
    value. *)
Theorem message_verdict_inputs `{mfdef} (w w1 : world) (envfrom : cstring)
    (hs : list (cstring * cstring)) :
  fits_int envfrom -> Forall header_ok hs ->
  mlfi_envfrom envfrom w = Done SMFIS_CONTINUE w1 ->
  exists v w2,
    (mlfi_headers hs ;;; mlfi_eom) w1 = Done v w2 /\
    (v = SMFIS_REJECT <->
     authenticated w /\
     Exists (fun h => is_from (fst h) /\
                      ~ token_eq (parse_address (snd h))
                          (parse_address envfrom)) hs) /\
    (v = SMFIS_REJECT \/ v = SMFIS_CONTINUE).
Proof.
  intros Hfit Hok Henv.
  destruct (mlfi_envfrom_stored w envfrom w1 Hfit Henv)
    as (p & Hp & Hrej & Hauth & Hlen & Hslice).
  assert (Hmis : Exists (mismatch p) hs <->
                 Exists (fun h => is_from (fst h) /\
                                  ~ token_eq (parse_address (snd h))
                                      (parse_address envfrom)) hs).
  { rewrite !Exists_exists. unfold mismatch.
    split; intros (h & Hin & Hf & Hne); exists h; (split; [exact Hin|]);
      (split; [exact Hf|]); intros Heq; apply Hne;
      now apply (token_eq_stored p envfrom _ Hlen Hslice). }
  unfold bind.
  destruct (Z.eq_dec (is_auth p) 0) as [Hno|Hyes].
  - rewrite (mlfi_headers_settled hs w1 p Hp (or_introl Hno)).
    destruct (mlfi_eom_session w1 p Hp) as [w2 Heom].
    rewrite Hrej in Heom. cbn [Z.eqb] in Heom.
    exists SMFIS_CONTINUE, w2. split; [exact Heom|]. split; [|now right].
    split; [discriminate|]. intros [Ha _]. apply Hauth in Ha. contradiction.
  - destruct (mlfi_headers_active hs w1 p Hp Hyes Hrej Hok)
      as [[Hex Hrun]|[Hnone Hrun]]; rewrite Hrun.
    + destruct (mlfi_eom_session (with_priv w1 (Some (with_reject p 1)))
                  (with_reject p 1) eq_refl) as [w2 Heom].
      cbn [reject with_reject Z.eqb] in Heom.
      exists SMFIS_REJECT, w2. split; [exact Heom|]. split; [|now left].
      split; [|reflexivity]. intros _. split; [now apply Hauth|now apply Hmis].
    + destruct (mlfi_eom_session w1 p Hp) as [w2 Heom].
      rewrite Hrej in Heom. cbn [Z.eqb] in Heom.
      exists SMFIS_CONTINUE, w2. split; [exact Heom|]. split; [|now right].
      split; [discriminate|]. intros [_ Hex]. apply Hmis in Hex. contradiction.
Qed.

Lemma message_verdict_inputs_witness :
  exists v w2,
    (@mlfi_headers libmilter_mfdef
       [(cstr "From", cstr "Alice <ALICE@example.com>")] ;;; mlfi_eom)
      (busy alice) = Done v w2 /\
    (v = SMFIS_REJECT <->
     authenticated (idle true 0) /\
     Exists (fun h => is_from (fst h) /\
                      ~ token_eq (parse_address (snd h))
                          (parse_address (cstr "<alice@example.com>")))
       [(cstr "From", cstr "Alice <ALICE@example.com>")]) /\
    (v = SMFIS_REJECT \/ v = SMFIS_CONTINUE).
Proof.
  apply (@message_verdict_inputs libmilter_mfdef (idle true 0) (busy alice)
           (cstr "<alice@example.com>")).
  - short_string.
  - repeat (constructor; [repeat split; (c_string || short_string)|]).
    constructor.
  - reflexivity.
Defined.




(** ** Memory *)

(** X9. A refused request in [mlfi_envfrom].  When [malloc] is refused nothing
    is held; when [malloc] is served and [strndup] refused, the callback
    returns [SMFIS_TEMPFAIL] holding one block more than before, with no
    session that points to it: the session record is not released. *)
Theorem mlfi_envfrom_refused (w : world) (envfrom : cstring) :
  (served w 0 = false ->
   exists w', mlfi_envfrom envfrom w = Done SMFIS_TEMPFAIL w' /\
              heap_live w' = heap_live w /\ ctx_priv w' = ctx_priv w) /\
  (served w 0 = true -> served w 1 = false ->
   exists w', mlfi_envfrom envfrom w = Done SMFIS_TEMPFAIL w' /\
              heap_live w' = S (heap_live w) /\ ctx_priv w' = ctx_priv w).
Proof.
  unfold served, mlfi_envfrom, malloc, strndup, allocate, bind, ret.
  destruct (parse_address envfrom) as [from len].
  destruct (heap_oracle w) as [|[|] [|[|] o]]; cbn -[take cstr];
    (split; [intros Hs; try discriminate Hs
            |intros Hs0 Hs1; try discriminate Hs0; try discriminate Hs1]);
    eexists; repeat split.
Qed.

Lemma mlfi_envfrom_refused_witness :
  exists w',
    mlfi_envfrom (cstr "<alice@example.com>")
      (with_heap (idle true 0) [true; false] 0) = Done SMFIS_TEMPFAIL w' /\
    heap_live w' = S (heap_live (with_heap (idle true 0) [true; false] 0)) /\
    ctx_priv w' = ctx_priv (with_heap (idle true 0) [true; false] 0).
Proof.
  refine (proj2 (mlfi_envfrom_refused
                   (with_heap (idle true 0) [true; false] 0)
                   (cstr "<alice@example.com>")) _ _); reflexivity.
Defined.

(** Header events keep the session in place and hold what was held. *)
Lemma mlfi_headers_keep `{mfdef} hs :
  forall w p, ctx_priv w = Some p ->
              exists w' p', mlfi_headers hs w = Done tt w' /\
                            ctx_priv w' = Some p' /\
                            heap_live w' = heap_live w.
Proof.
  induction hs as [|[headerf headerv] hs IH]; intros w p Hp.
  - exists w, p. now repeat split.
  - cbn [mlfi_headers]. unfold bind.
    rewrite (mlfi_header_session w p headerf headerv Hp).
    destruct (_ && _).
    + destruct (IH (with_priv w (Some (with_reject p 1))) _ eq_refl)
        as (w' & p' & Hrun & Hp' & Hlive).
      exists w', p'. now repeat split.
    + now apply (IH w p).
Qed.

Lemma mlfi_eom_releases w p :
  ctx_priv w = Some p ->
  exists v w', mlfi_eom w = Done v w' /\
               heap_live w' = pred (pred (heap_live w)) /\ ctx_priv w' = None.
Proof.
  intros Hp. unfold mlfi_eom, bind, smfi_getpriv, deref, smfi_setreply, ret.
  rewrite Hp. destruct (negb (reject p =? 0)).
  - rewrite (mlfi_cleanup_session _ p) by exact Hp. eexists _, _.
    now repeat split.
  - rewrite (mlfi_cleanup_session _ p) by exact Hp. eexists _, _.
    now repeat split.
Qed.

(** X10. The memory of a message.  A successful envelope-sender event holds two
    blocks more than before (an earlier session, if the slot held one, is
    not released); after the header events, the end-of-message event, and
    just as well the abort event, returns with the slot null and exactly
    as many blocks held as before the message. *)
Theorem message_memory `{mfdef} (w w1 : world) (envfrom : cstring)
    (hs : list (cstring * cstring)) :
  mlfi_envfrom envfrom w = Done SMFIS_CONTINUE w1 ->
  heap_live w1 = S (S (heap_live w)) /\
  (exists v w2, (mlfi_headers hs ;;; mlfi_eom) w1 = Done v w2 /\
                heap_live w2 = heap_live w /\ ctx_priv w2 = None) /\
  (exists w2, (mlfi_headers hs ;;; mlfi_abort) w1 = Done SMFIS_CONTINUE w2 /\
              heap_live w2 = heap_live w /\ ctx_priv w2 = None).
Proof.
  intros Henv.
  destruct (mlfi_envfrom_continue w envfrom w1 Henv) as (p & Hp & _).
  assert (Hlive : heap_live w1 = S (S (heap_live w))).
  { revert Henv. unfold mlfi_envfrom, malloc, strndup, allocate, bind, ret,
      smfi_getsymval, smfi_setpriv.
    destruct (parse_address envfrom) as [from len].
    destruct (heap_oracle w) as [|[|] [|[|] o]]; cbn -[take cstr];
      now intros [= <-]. }
  split; [exact Hlive|].
  destruct (mlfi_headers_keep hs w1 p Hp) as (w' & p' & Hrun & Hp' & Hkeep).
  unfold bind. rewrite Hrun. split.
  - destruct (mlfi_eom_releases w' p' Hp') as (v & w2 & Heom & Hrel & Hnone).
    exists v, w2. split; [exact Heom|]. split; [|exact Hnone].
    rewrite Hrel, Hkeep, Hlive. reflexivity.
  - unfold mlfi_abort, bind, ret. rewrite (mlfi_cleanup_session w' p' Hp').
    eexists. split; [reflexivity|]. split; [|reflexivity].
    cbn. rewrite Hkeep, Hlive. reflexivity.
Qed.

Lemma message_memory_witness :
  heap_live (busy alice) = S (S (heap_live (idle true 0))) /\
  (exists v w2,
      (@mlfi_headers libmilter_mfdef [(cstr "From", cstr "bob@example.com")]
       ;;; mlfi_eom) (busy alice) = Done v w2 /\
      heap_live w2 = heap_live (idle true 0) /\ ctx_priv w2 = None) /\
  (exists w2,
      (@mlfi_headers libmilter_mfdef [(cstr "From", cstr "bob@example.com")]
       ;;; mlfi_abort) (busy alice) = Done SMFIS_CONTINUE w2 /\
      heap_live w2 = heap_live (idle true 0) /\ ctx_priv w2 = None).
Proof.
  apply (@message_memory libmilter_mfdef (idle true 0) (busy alice)
           (cstr "<alice@example.com>")).
  reflexivity.
Defined.

(** ** The program *)

Lemma main_getopt_served opts :
  forall dups l, all_served dups ->
                 main_getopt opts dups l = main_getopt opts [] l.
Proof.
  induction opts as [|[c optarg] opts IH]; intros dups l Hd; [reflexivity|].
  assert (Htl : all_served (tl dups))
    by (destruct Hd; [constructor|assumption]).
  assert (Hhd : hd true dups = true) by (destruct Hd; [reflexivity|assumption]).
  cbn [main_getopt hd tl]. rewrite Hhd.
  destruct (Ascii.eqb c "s"); [now apply IH|].
  destruct (Ascii.eqb c "p"); [now apply IH|].
  destruct (Ascii.eqb c "d"); now apply IH.
Qed.

(** The locals after the option loop, when every copy is served: the
    argument of the last [-s], that of the last [-p], and whether [-d] was
    given. *)
Lemma main_getopt_last opts :
  forall l,
    main_getopt opts [] l =
    {| daemonize := if has_opt "d" opts then 1 else daemonize l;
       pidfilename := match last_arg "p" opts with
                      | Some a => Some a
                      | None => pidfilename l
                      end;
       sockname := match last_arg "s" opts with
                   | Some a => Some a
                   | None => sockname l
                   end |}.
Proof.
  induction opts as [|[c optarg] opts IH]; intros l.
  - now destruct l.
  - cbn [main_getopt has_opt existsb last_arg fst hd tl].
    fold (has_opt "d" opts).
    destruct (Ascii.eqb_spec c "s") as [->|Hs].
    { rewrite IH. cbn. destruct (has_opt "d" opts), (last_arg "p" opts),
        (last_arg "s" opts); reflexivity. }
    destruct (Ascii.eqb_spec c "p") as [->|Hp].
    { rewrite IH. cbn. destruct (has_opt "d" opts), (last_arg "p" opts),
        (last_arg "s" opts); reflexivity. }
    destruct (Ascii.eqb_spec c "d") as [->|Hd].
    { rewrite IH. cbn. destruct (has_opt "d" opts), (last_arg "p" opts),
        (last_arg "s" opts); reflexivity. }
    rewrite IH. cbn [orb].
    destruct (has_opt "d" opts), (last_arg "p" opts), (last_arg "s" opts);
      reflexivity.
Qed.

(** What the loop leaves when an option is absent, and for [-d], whatever
    the copies do. *)
Lemma main_getopt_any opts :
  forall dups l,
    (last_arg "s" opts = None ->
     sockname (main_getopt opts dups l) = sockname l) /\
    (last_arg "p" opts = None ->
     pidfilename (main_getopt opts dups l) = pidfilename l) /\
    daemonize (main_getopt opts dups l) =
    (if has_opt "d" opts then 1 else daemonize l).
Proof.
  induction opts as [|[c optarg] opts IH]; intros dups l.
  - now repeat split.
  - cbn [main_getopt has_opt existsb last_arg fst].
    fold (has_opt "d" opts).
    destruct (Ascii.eqb_spec c "s") as [->|Hs];
      [|destruct (Ascii.eqb_spec c "p") as [->|Hp];
        [|destruct (Ascii.eqb_spec c "d") as [->|Hd]]];
      match goal with
      | |- context [main_getopt opts ?d ?l'] =>
          destruct (IH d l') as (H1 & H2 & H3)
      end;
      rewrite H3; cbn [Ascii.eqb Bool.eqb orb daemonize];
      (split; [|split]);
      try (destruct (last_arg "s" opts); [discriminate|];
           first [discriminate | intros _; now rewrite H1]);
      try (destruct (last_arg "p" opts); [discriminate|];
           first [discriminate | intros _; now rewrite H2]);
      try (destruct (has_opt "d" opts); reflexivity).
Qed.

(** X11. Without [-s] the program complains, leaves through
    [exit(EX_USAGE)] and has done nothing else: no file is touched,
    nothing is registered. *)
Theorem main_missing_socket (argv0 : cstring) (opts : list getopt_result)
    (sys : os) :
  last_arg "s" opts = None ->
  main argv0 opts sys = Exited EX_USAGE [Print (Missing_s argv0)].
Proof.
  intros Hs. unfold main, main_body.
  destruct (main_getopt_any opts (os_strdup sys)
              {| daemonize := 0; pidfilename := None; sockname := None |})
    as (H1 & _ & _).
  rewrite (H1 Hs). reflexivity.
Qed.

Lemma main_missing_socket_witness :
  main (cstr "milterfrom") [("d"%char, []); ("p"%char, cstr "/run/mf.pid")]
    fair_os = Exited EX_USAGE [Print (Missing_s (cstr "milterfrom"))].
Proof.
  apply (main_missing_socket (cstr "milterfrom")
           [("d"%char, []); ("p"%char, cstr "/run/mf.pid")] fair_os).
  reflexivity.
Defined.

Lemma main_served argv0 opts sys :
  all_served (os_strdup sys) ->
  main argv0 opts sys =
  main_body argv0
    {| daemonize := if has_opt "d" opts then 1 else 0;
       pidfilename := last_arg "p" opts;
       sockname := last_arg "s" opts |} sys [].
Proof.
  intros Hd. unfold main. rewrite (main_getopt_served opts _ _ Hd).
  rewrite main_getopt_last. cbn [daemonize pidfilename sockname].
  now destruct (last_arg "p" opts), (last_arg "s" opts).
Qed.

Ltac run_main :=
  unfold main_body, pbind, act, pret, c_exit;
  cbn [sockname pidfilename daemonize negb Z.eqb app].

(** X12. [main] calls [smfi_main], and returns what it returns, exactly when
    [-s] is given, the pid file of [-p] could be opened, the daemon of
    [-d] could be started and the filter could be registered; on every
    other path it leaves through [exit] without having called
    [smfi_main].  (The copies of the option arguments are served.) *)
Theorem main_reaches_smfi_main (argv0 : cstring) (opts : list getopt_result)
    (sys : os) :
  all_served (os_strdup sys) ->
  ((exists z log, main argv0 opts sys = Next z log) <->
   last_arg "s" opts <> None /\
   (last_arg "p" opts <> None -> os_fopen sys = true) /\
   (has_opt "d" opts = true -> os_daemon sys = true) /\
   os_register sys = true) /\
  (forall z log, main argv0 opts sys = Next z log ->
                 z = os_smfi_main sys /\ In Run log) /\
  (forall code log, main argv0 opts sys = Exited code log -> ~ In Run log).
Proof.
  intros Hd. rewrite (main_served argv0 opts sys Hd).
  run_main.
  destruct (last_arg "s" opts) as [sock|], (last_arg "p" opts) as [name|],
    (has_opt "d" opts), (os_fopen sys), (os_daemon sys), (os_stat sys),
    (os_register sys); cbn [negb Z.eqb app].
  all: split; [split|split].
  all: try (intros (z & log & Hrun); discriminate Hrun).
  all: try (intros _; eexists _, _; reflexivity).
  all: try (intros _; repeat split; intros; congruence).
  all: try (intros (H1 & H2 & H3 & H4); exfalso;
            first [ now apply H1
                  | discriminate H4
                  | discriminate (H2 ltac:(discriminate))
                  | discriminate (H3 eq_refl) ]).
  all: try (intros z log [= <- <-]; split; [reflexivity|];
            cbn [In]; intuition discriminate).
  all: try (intros z log Hrun; discriminate Hrun).
  all: try (intros code log [= <- <-]; cbn [In]; intuition discriminate).
  all: try (intros code log Hrun; discriminate Hrun).
Qed.

Lemma main_reaches_smfi_main_witness :
  ((exists z log,
       main (cstr "milterfrom")
         [("s"%char, cstr "/run/mf.sock"); ("d"%char, [])] fair_os
       = Next z log) <->
   last_arg "s" [("s"%char, cstr "/run/mf.sock"); ("d"%char, [])] <> None /\
   (last_arg "p" [("s"%char, cstr "/run/mf.sock"); ("d"%char, [])] <> None ->
    os_fopen fair_os = true) /\
   (has_opt "d" [("s"%char, cstr "/run/mf.sock"); ("d"%char, [])] = true ->
    os_daemon fair_os = true) /\
   os_register fair_os = true) /\
  (forall z log,
      main (cstr "milterfrom")
        [("s"%char, cstr "/run/mf.sock"); ("d"%char, [])] fair_os
      = Next z log ->
      z = os_smfi_main fair_os /\ In Run log) /\
  (forall code log,
      main (cstr "milterfrom")
        [("s"%char, cstr "/run/mf.sock"); ("d"%char, [])] fair_os
      = Exited code log -> ~ In Run log).
Proof.
  apply (main_reaches_smfi_main (cstr "milterfrom")
           [("s"%char, cstr "/run/mf.sock"); ("d"%char, [])] fair_os).
  constructor.
Defined.

Lemma precedes_here a b log : In b log -> precedes a b (a :: log).
Proof.
  intros Hin. apply in_split in Hin. destruct Hin as (l2 & l3 & ->).
  now exists [], l2, l3.
Qed.

Lemma precedes_later a b x log : precedes a b log -> precedes a b (x :: log).
Proof.
  intros (l1 & l2 & l3 & ->). now exists (x :: l1), l2, l3.
Qed.

Ltac in_order :=
  first [ apply precedes_here; cbn [In];
          solve [repeat first [left; reflexivity | right]]
        | apply precedes_later; in_order ].

(** X13. The socket is that of the last [-s]: no other connection is handed to
    [smfi_setconn], no other path is examined by [stat], a file is removed
    at that path only when [stat] has found one there, and when [main]
    reaches [smfi_main] the connection has been set, after [stat] and
    before the filter is registered.  (The copies of the option arguments
    are served.) *)
Theorem main_socket (argv0 sock : cstring) (opts : list getopt_result)
    (sys : os) :
  all_served (os_strdup sys) ->
  last_arg "s" opts = Some sock ->
  (forall x, In (Setconn x) (log_of (main argv0 opts sys)) -> x = sock) /\
  (forall x, In (Stat x) (log_of (main argv0 opts sys)) -> x = sock) /\
  (forall x, In (Unlink x) (log_of (main argv0 opts sys)) ->
             x = sock /\ os_stat sys = true \/ last_arg "p" opts = Some x) /\
  (forall z log, main argv0 opts sys = Next z log ->
                 precedes (Stat sock) (Setconn sock) log /\
                 precedes (Setconn sock) Register log).
Proof.
  intros Hd Hs. rewrite (main_served argv0 opts sys Hd), Hs.
  run_main.
  destruct (last_arg "p" opts) as [name|], (has_opt "d" opts), (os_fopen sys),
    (os_daemon sys), (os_stat sys), (os_register sys);
    cbn [negb Z.eqb app log_of In].
  all: split; [|split; [|split]];
    [ intros x Hin; intuition (try discriminate; try congruence)
    | intros x Hin; intuition (try discriminate; try congruence)
    | intros x Hin; intuition (try discriminate; try congruence)
    | ].
  all: try (intros z log Hrun; discriminate Hrun).
  all: intros z log [= <- <-]; split.
  all: in_order.
Qed.

Lemma main_socket_witness :
  (forall x,
      In (Setconn x)
        (log_of (main (cstr "milterfrom")
                   [("s"%char, cstr "/run/a.sock");
                    ("s"%char, cstr "/run/b.sock")] fair_os)) ->
      x = cstr "/run/b.sock") /\
  (forall x,
      In (Stat x)
        (log_of (main (cstr "milterfrom")
                   [("s"%char, cstr "/run/a.sock");
                    ("s"%char, cstr "/run/b.sock")] fair_os)) ->
      x = cstr "/run/b.sock") /\
  (forall x,
      In (Unlink x)
        (log_of (main (cstr "milterfrom")
                   [("s"%char, cstr "/run/a.sock");
                    ("s"%char, cstr "/run/b.sock")] fair_os)) ->
      x = cstr "/run/b.sock" /\ os_stat fair_os = true \/
      last_arg "p" [("s"%char, cstr "/run/a.sock");
                    ("s"%char, cstr "/run/b.sock")] = Some x) /\
  (forall z log,
      main (cstr "milterfrom")
        [("s"%char, cstr "/run/a.sock"); ("s"%char, cstr "/run/b.sock")]
        fair_os = Next z log ->
      precedes (Stat (cstr "/run/b.sock")) (Setconn (cstr "/run/b.sock")) log /\
      precedes (Setconn (cstr "/run/b.sock")) Register log).
Proof.
  apply (main_socket (cstr "milterfrom") (cstr "/run/b.sock")
           [("s"%char, cstr "/run/a.sock"); ("s"%char, cstr "/run/b.sock")]
           fair_os).
  - constructor.
  - reflexivity.
Defined.

(** X14. With [-d], the process id goes into the pid file after the process has
    become a daemon, so it is the daemon's; and the pid file was opened
    before that. *)
Theorem main_pid_after_daemon (argv0 : cstring) (opts : list getopt_result)
    (sys : os) (pid : Z) :
  has_opt "d" opts = true ->
  In (Write_pid pid) (log_of (main argv0 opts sys)) ->
  pid = os_getpid sys /\
  precedes Daemon (Write_pid pid) (log_of (main argv0 opts sys)) /\
  exists name, precedes (Fopen name) Daemon (log_of (main argv0 opts sys)).
Proof.
  intros Hopt. unfold main.
  destruct (main_getopt_any opts (os_strdup sys)
              {| daemonize := 0; pidfilename := None; sockname := None |})
    as (_ & _ & Hdz).
  rewrite Hopt in Hdz.
  destruct (main_getopt _ _ _) as [dz pf sn]. cbn [daemonize] in Hdz. subst dz.
  run_main.
  destruct sn as [sock|], pf as [name|], (os_fopen sys), (os_daemon sys),
    (os_stat sys), (os_register sys); cbn [negb Z.eqb app log_of In].
  all: intros Hin.
  all: repeat (destruct Hin as [Hin|Hin]; try discriminate Hin);
    try contradiction.
  all: injection Hin as <-.
  all: split; [reflexivity|].
  all: split; [in_order|].
  all: exists name; in_order.
Qed.

Lemma main_pid_after_daemon_witness :
  4711 = os_getpid fair_os /\
  precedes Daemon (Write_pid 4711)
    (log_of (main (cstr "milterfrom")
               [("d"%char, []); ("p"%char, cstr "/run/mf.pid");
                ("s"%char, cstr "/run/mf.sock")] fair_os)) /\
  exists name,
    precedes (Fopen name) Daemon
      (log_of (main (cstr "milterfrom")
                 [("d"%char, []); ("p"%char, cstr "/run/mf.pid");
                  ("s"%char, cstr "/run/mf.sock")] fair_os)).
Proof.
  apply (main_pid_after_daemon (cstr "milterfrom")
           [("d"%char, []); ("p"%char, cstr "/run/mf.pid");
            ("s"%char, cstr "/run/mf.sock")] fair_os 4711).
  - reflexivity.
  - vm_compute. tauto.
Defined.

(** X15. A pid file that cannot be opened: the program has removed the file of
    that name, complains and leaves through [exit(1)], before it would
    become a daemon or touch the socket.  (The copies of the option
    arguments are served.) *)
Theorem main_pidfile_failure (argv0 sock name : cstring)
    (opts : list getopt_result) (sys : os) :
  all_served (os_strdup sys) ->
  last_arg "s" opts = Some sock -> last_arg "p" opts = Some name ->
  os_fopen sys = false ->
  main argv0 opts sys =
  Exited EXIT_1 [Unlink name; Fopen name; Print Pidfile_failed].
Proof.
  intros Hd Hs Hp Hopen. rewrite (main_served argv0 opts sys Hd), Hs, Hp.
  run_main. now rewrite Hopen.
Qed.

Lemma main_pidfile_failure_witness :
  main (cstr "milterfrom")
    [("p"%char, cstr "/nowhere/mf.pid"); ("s"%char, cstr "/run/mf.sock")]
    {| os_strdup := []; os_fopen := false; os_daemon := true;
       os_getpid := 4711; os_stat := true; os_register := true;
       os_smfi_main := 0 |} =
  Exited EXIT_1
    [Unlink (cstr "/nowhere/mf.pid"); Fopen (cstr "/nowhere/mf.pid");
     Print Pidfile_failed].
Proof.
  apply (main_pidfile_failure (cstr "milterfrom") (cstr "/run/mf.sock")
           (cstr "/nowhere/mf.pid")).
  - constructor.
  - reflexivity.
  - reflexivity.
  - reflexivity.
Defined.

(** X16. Without [-p] no pid file is opened or written. *)
Theorem main_no_pidfile (argv0 : cstring) (opts : list getopt_result)
    (sys : os) :
  last_arg "p" opts = None ->
  forall a, In a (log_of (main argv0 opts sys)) ->
            (forall path, a <> Fopen path) /\
            (forall pid, a <> Write_pid pid) /\ a <> Fclose.
Proof.
  intros Hp. unfold main.
  destruct (main_getopt_any opts (os_strdup sys)
              {| daemonize := 0; pidfilename := None; sockname := None |})
    as (_ & Hpf & _).
  specialize (Hpf Hp).
  destruct (main_getopt _ _ _) as [dz pf sn]. cbn [pidfilename] in Hpf.
  subst pf. run_main.
  destruct sn as [sock|], (dz =? 0), (os_daemon sys), (os_stat sys),
    (os_register sys); cbn [negb app log_of In].
  all: intros a Hin.
  all: repeat (destruct Hin as [<-|Hin]; [repeat split; discriminate|]).
  all: contradiction.
Qed.

Lemma main_no_pidfile_witness :
  In Daemon
    (log_of (main (cstr "milterfrom")
               [("d"%char, []); ("s"%char, cstr "/run/mf.sock")] fair_os)) /\
  ((forall path, Daemon <> Fopen path) /\
   (forall pid, Daemon <> Write_pid pid) /\ Daemon <> Fclose).
Proof.
  assert (Hin : In Daemon
                  (log_of (main (cstr "milterfrom")
                             [("d"%char, []); ("s"%char, cstr "/run/mf.sock")]
                             fair_os)))
    by (vm_compute; tauto).
  split; [exact Hin|].
  apply (main_no_pidfile (cstr "milterfrom")
           [("d"%char, []); ("s"%char, cstr "/run/mf.sock")] fair_os
           eq_refl Daemon Hin).
Defined.

(** The option loop on a command line in two parts. *)
Lemma main_getopt_app opts1 opts2 :
  forall dups l,
    main_getopt (opts1 ++ opts2) dups l =
    main_getopt opts2 (skipn (copies opts1) dups) (main_getopt opts1 dups l).
Proof.
  unfold copies.
  induction opts1 as [|[c optarg] opts1 IH]; intros dups l; [reflexivity|].
  cbn [app main_getopt filter fst].
  assert (Hskip : forall n, skipn (S n) dups = skipn n (tl dups))
    by (intros n; now destruct dups; [destruct n|]).
  destruct (Ascii.eqb c "s"); cbn [orb List.length];
    [now rewrite IH, Hskip|].
  destruct (Ascii.eqb c "p"); cbn [orb List.length];
    [now rewrite IH, Hskip|].
  destruct (Ascii.eqb c "d"); now rewrite IH.
Qed.

(** X17. The copy of an option argument is not checked: when [strdup] is
    refused for the last [-s], the program goes on without a socket name,
    complains that [-s] is missing and leaves through [exit(EX_USAGE)]. *)
Theorem main_copy_refused (argv0 sock : cstring)
    (before after : list getopt_result) (sys : os) :
  nth (copies before) (os_strdup sys) true = false ->
  last_arg "s" after = None ->
  main argv0 (before ++ ("s"%char, sock) :: after) sys =
  Exited EX_USAGE [Print (Missing_s argv0)].
Proof.
  intros Hrefused Hafter. unfold main, main_body.
  rewrite main_getopt_app. cbn [main_getopt Ascii.eqb Bool.eqb].
  assert (Hhd : hd true (skipn (copies before) (os_strdup sys)) = false).
  { rewrite <- Hrefused. generalize (copies before) as n.
    generalize (os_strdup sys) as dups.
    induction dups as [|b dups IH]; intros [|n]; cbn; try reflexivity.
    apply IH. }
  rewrite Hhd.
  match goal with
  | |- context [main_getopt after ?d ?l] =>
      destruct (main_getopt_any after d l) as (H1 & _ & _)
  end.
  rewrite (H1 Hafter). reflexivity.
Qed.

Lemma main_copy_refused_witness :
  main (cstr "milterfrom")
    ([("p"%char, cstr "/run/mf.pid")] ++ ("s"%char, cstr "/run/mf.sock")
       :: [("d"%char, [])])
    {| os_strdup := [true; false]; os_fopen := true; os_daemon := true;
       os_getpid := 4711; os_stat := true; os_register := true;
       os_smfi_main := 0 |} =
  Exited EX_USAGE [Print (Missing_s (cstr "milterfrom"))].
Proof.
  apply (main_copy_refused (cstr "milterfrom") (cstr "/run/mf.sock")
           [("p"%char, cstr "/run/mf.pid")] [("d"%char, [])]).
  - reflexivity.
  - reflexivity.
Defined.
